(** * Verification of the libgitops mapping cache and event concatenation

    The development embeds two parts of the repository:

    - [GenericFileFinder], the in-memory mapping cache of
      [pkg/storage/filesystem/unstructured/filefinder_mapped.go], with
      its two views: identity to [ChecksumPath] (held by the [branch])
      and path to the identities stored in that file ([pathToIDs]);
    - the event concatenation of the inotify file watcher, exercised by
      [TestEventConcatenation].

    The mutex [mu] of the Go struct is not modelled: every operation is
    embedded as the sequential function it is while the lock is held. *)

From stdpp Require Import base gmap sets list strings.

Open Scope string_scope.

(** ** Identities and checksum paths *)

(** [core.GroupKind]: an API group and a kind. *)
Record GroupKind := mkGroupKind { Group : string; Kind : string }.

(** [core.ObjectKey]: name and namespace (the namespace is empty for
    root-spaced kinds). *)
Record ObjectKey := mkObjectKey { Name : string; Namespace : string }.

(** [core.UnversionedObjectID], built by [core.NewUnversionedObjectID]. *)
Record UnversionedObjectID := NewUnversionedObjectID {
  IDGroupKind : GroupKind;
  IDObjectKey : ObjectKey
}.

(** [ChecksumPath]: the checksum of a file and its path relative to the
    root directory. *)
Record ChecksumPath := mkChecksumPath { Checksum : string; Path : string }.

#[global] Instance GroupKind_eq_dec : EqDecision GroupKind.
Proof. solve_decision. Defined.

#[global] Instance ObjectKey_eq_dec : EqDecision ObjectKey.
Proof. solve_decision. Defined.

#[global] Instance UnversionedObjectID_eq_dec : EqDecision UnversionedObjectID.
Proof. solve_decision. Defined.

#[global] Instance ChecksumPath_eq_dec : EqDecision ChecksumPath.
Proof. solve_decision. Defined.

#[global] Instance GroupKind_countable : Countable GroupKind.
Proof.
  apply (inj_countable' (λ g, (Group g, Kind g))
                        (λ p, mkGroupKind p.1 p.2)).
  by intros [].
Defined.

#[global] Instance ObjectKey_countable : Countable ObjectKey.
Proof.
  apply (inj_countable' (λ k, (Name k, Namespace k))
                        (λ p, mkObjectKey p.1 p.2)).
  by intros [].
Defined.

#[global] Instance UnversionedObjectID_countable : Countable UnversionedObjectID.
Proof.
  apply (inj_countable' (λ i, (IDGroupKind i, IDObjectKey i))
                        (λ p, NewUnversionedObjectID p.1 p.2)).
  by intros [].
Defined.

(** [core.UnversionedObjectIDSet]: a set of identities. *)
Abbreviation UnversionedObjectIDSet := (gset UnversionedObjectID).

(** ** The branch: identity to checksum path *)

Module Branch.

(** Modelled from the spec: the types [branch], [groupKind] and
    [namespace] and their implementation [branchImpl] are not among the
    source files; only their callers in [filefinder_mapped.go] are.  The
    specification describes this view as the map from identity to
    [ChecksumPath] with exactly one entry per tracked identity,
    partitioned by group/kind and by namespace.  It is embedded as three
    nested finite maps; a partition that was never written reads as the
    empty map, which is what the zero value [&branchImpl{}] stands for. *)
Abbreviation namespaceImpl := (gmap string ChecksumPath).
Abbreviation groupKindImpl := (gmap string namespaceImpl).
Abbreviation branchImpl := (gmap GroupKind groupKindImpl).

(** Modelled from the spec: [&branchImpl{}], the branch with no mapping. *)
Definition empty : branchImpl := ∅.

(** Modelled from the spec: [b.groupKind(gk)], the partition of a
    group/kind. *)
Definition groupKind (b : branchImpl) (gk : GroupKind) : groupKindImpl :=
  default ∅ (b !! gk).

(** Modelled from the spec: [g.namespace(ns)], the partition of a
    namespace. *)
Definition namespace (g : groupKindImpl) (ns : string) : namespaceImpl :=
  default ∅ (g !! ns).

(** Modelled from the spec: [n.name(name)], the comma-ok lookup. *)
Definition name (n : namespaceImpl) (nm : string) : option ChecksumPath :=
  n !! nm.

(** Modelled from the spec: [n.raw()], the names of a namespace with
    their mappings. *)
Definition raw (n : namespaceImpl) : gmap string ChecksumPath := n.

(** Modelled from the spec: [b.groupKind(gk).namespace(ns).setName(nm, cp)]
    maps the name to [cp].  The Go call writes through the two
    references; here the updated partition is written back at each
    level. *)
Definition setName (b : branchImpl) (gk : GroupKind) (ns nm : string)
    (cp : ChecksumPath) : branchImpl :=
  let g := groupKind b gk in
  <[gk := <[ns := <[nm := cp]> (namespace g ns)]> g]> b.

(** Modelled from the spec: [b.groupKind(gk).namespace(ns).deleteName(nm)]
    removes the mapping of the name. *)
Definition deleteName (b : branchImpl) (gk : GroupKind) (ns nm : string)
    : branchImpl :=
  let g := groupKind b gk in
  <[gk := <[ns := delete nm (namespace g ns)]> g]> b.

(** The chain [groupKind(..).namespace(..).name(..)] that [getMapping]
    calls on the branch. *)
Definition lookup (b : branchImpl) (id : UnversionedObjectID)
    : option ChecksumPath :=
  name (namespace (groupKind b (IDGroupKind id))
                  (Namespace (IDObjectKey id)))
       (Name (IDObjectKey id)).

End Branch.

(** ** Errors *)

(** The error values the file finder hands out: the sentinel
    [ErrNotTracked] ("untracked object") and [core.NewErrNotFound(id)]. *)
Inductive sentinel :=
  | ErrNotTracked
  | ErrNotFound (id : UnversionedObjectID).

#[global] Instance sentinel_eq_dec : EqDecision sentinel.
Proof. solve_decision. Defined.

(** An [error] is a single error value or the result of
    [utilerrs.NewAggregate] on a list of them. *)
Inductive error :=
  | Plain (e : sentinel)
  | Aggregate (errs : list sentinel).

(** [errors.Is(err, target)]: an aggregate matches when one of its members
    does. *)
Definition errors_Is (err : error) (target : sentinel) : bool :=
  match err with
  | Plain e => bool_decide (e = target)
  | Aggregate errs => existsb (λ e, bool_decide (e = target)) errs
  end.

(** ** The file finder *)

(** [GenericFileFinder], restricted to the fields guarded by [mu]. *)
Record GenericFileFinder := mkFinder {
  branch : Branch.branchImpl;
  pathToIDs : gmap string UnversionedObjectIDSet
}.

(** [NewGenericFileFinder]: an empty branch and an empty path map. *)
Definition NewGenericFileFinder : GenericFileFinder :=
  mkFinder Branch.empty ∅.

Definition getMapping (f : GenericFileFinder) (id : UnversionedObjectID)
    : option ChecksumPath :=
  Branch.lookup (branch f) id.

Definition GetMapping (f : GenericFileFinder) (id : UnversionedObjectID)
    : option ChecksumPath :=
  getMapping f id.

Definition ObjectPath (f : GenericFileFinder) (id : UnversionedObjectID)
    : error + string :=
  match GetMapping f id with
  | None => inl (Aggregate [ErrNotTracked; ErrNotFound id])
  | Some cp => inr (Path cp)
  end.

Definition ObjectsAt (f : GenericFileFinder) (path : string)
    : error + UnversionedObjectIDSet :=
  match pathToIDs f !! path with
  | None => inl (Plain ErrNotTracked)
  | Some ids => inr ids
  end.

(** [ListObjectIDs]: one identity per name recorded under the group/kind
    and namespace.  The only [return] of the Go function has a [nil]
    error. *)
Definition ListObjectIDs (f : GenericFileFinder) (gk : GroupKind)
    (namespace : string) : error + UnversionedObjectIDSet :=
  let m := Branch.raw (Branch.namespace (Branch.groupKind (branch f) gk)
                                        namespace) in
  let ids := (λ nm, NewUnversionedObjectID gk (mkObjectKey nm namespace))
               <$> (map_to_list m).*1 in
  inr (list_to_set ids).

(** [SetMapping]: write the branch, create the identity set of the path
    if the path has none, then insert the identity into that set in
    place. *)
Definition SetMapping (f : GenericFileFinder) (id : UnversionedObjectID)
    (checksumPath : ChecksumPath) : GenericFileFinder :=
  let b := Branch.setName (branch f) (IDGroupKind id)
             (Namespace (IDObjectKey id)) (Name (IDObjectKey id))
             checksumPath in
  let p2i := match pathToIDs f !! Path checksumPath with
             | None => <[Path checksumPath := ∅]> (pathToIDs f)
             | Some _ => pathToIDs f
             end in
  mkFinder b (alter (λ ids, {[id]} ∪ ids) (Path checksumPath) p2i).

(** [ResetMappings]: a fresh branch, then [SetMapping] for every entry of
    the map.  Go ranges over a map in an unspecified order; [entries] is
    the order of one run, an enumeration of the map (see
    [enumerates]).  [pathToIDs] is not assigned by the Go function. *)
Definition ResetMappings (f : GenericFileFinder)
    (entries : list (UnversionedObjectID * ChecksumPath))
    : GenericFileFinder :=
  foldl (λ f' e, SetMapping f' e.1 e.2)
        (mkFinder Branch.empty (pathToIDs f)) entries.

(** [entries] lists the map [m] in some order. *)
Definition enumerates (entries : list (UnversionedObjectID * ChecksumPath))
    (m : gmap UnversionedObjectID ChecksumPath) : Prop :=
  entries ≡ₚ map_to_list m.

(** [f.pathToIDs[path].Len()]; a missing entry is the zero value, read
    here as a set of length 0.  [DeleteMapping] only reaches this with
    the entry present on every state built from [NewGenericFileFinder]
    (lemma [reachable_entry_present]). *)
Definition pathLen (p2i : gmap string UnversionedObjectIDSet)
    (path : string) : nat :=
  size (default ∅ (p2i !! path)).

(** [DeleteMapping]: nothing to do for an identity without a mapping;
    otherwise drop it from the branch and from the identity set of its
    path, and delete that set when its length reached zero. *)
Definition DeleteMapping (f : GenericFileFinder) (id : UnversionedObjectID)
    : GenericFileFinder :=
  match getMapping f id with
  | None => f
  | Some cp =>
      let b := Branch.deleteName (branch f) (IDGroupKind id)
                 (Namespace (IDObjectKey id)) (Name (IDObjectKey id)) in
      let p2i := alter (λ ids, ids ∖ {[id]}) (Path cp) (pathToIDs f) in
      mkFinder b (if decide (pathLen p2i (Path cp) = 0)
                  then delete (Path cp) p2i else p2i)
  end.

(** States that calls of [SetMapping], [DeleteMapping] and
    [ResetMappings] build from the empty finder. *)
Inductive reachable : GenericFileFinder → Prop :=
  | reach_new : reachable NewGenericFileFinder
  | reach_set f id cp :
      reachable f → reachable (SetMapping f id cp)
  | reach_delete f id :
      reachable f → reachable (DeleteMapping f id)
  | reach_reset f entries m :
      reachable f → enumerates entries m →
      reachable (ResetMappings f entries).

(** The same without [ResetMappings]. *)
Inductive reachable_set_delete : GenericFileFinder → Prop :=
  | rsd_new : reachable_set_delete NewGenericFileFinder
  | rsd_set f id cp :
      reachable_set_delete f → reachable_set_delete (SetMapping f id cp)
  | rsd_delete f id :
      reachable_set_delete f → reachable_set_delete (DeleteMapping f id).

(** Sample identities and paths. *)
Definition carKind : GroupKind := mkGroupKind "sample.libgitops" "Car".
Definition car1 : UnversionedObjectID :=
  NewUnversionedObjectID carKind (mkObjectKey "car1" "").
Definition car2 : UnversionedObjectID :=
  NewUnversionedObjectID carKind (mkObjectKey "car2" "").
Definition cpA : ChecksumPath := mkChecksumPath "c0" "a.yaml".
Definition cpB : ChecksumPath := mkChecksumPath "c1" "b.yaml".

(** [car1] registered in [a.yaml]. *)
Definition finderA : GenericFileFinder :=
  SetMapping NewGenericFileFinder car1 cpA.

(** [car1] registered in [a.yaml], then registered again in [b.yaml]. *)
Definition finderAB : GenericFileFinder := SetMapping finderA car1 cpB.

(** ** Invariants of the states built from the empty finder *)

(** Every mapping of the branch is registered under its path. *)
Definition registered (f : GenericFileFinder) : Prop :=
  ∀ id cp, GetMapping f id = Some cp →
    ∃ ids, pathToIDs f !! Path cp = Some ids ∧ id ∈ ids.

(** No path holds an empty identity set. *)
Definition no_empty_set (f : GenericFileFinder) : Prop :=
  ∀ p ids, pathToIDs f !! p = Some ids → ids ≠ ∅.

(** No identity is listed under a path it is not mapped to. *)
Definition no_stale (f : GenericFileFinder) : Prop :=
  ∀ p ids id, pathToIDs f !! p = Some ids → id ∈ ids →
    ∃ cp, GetMapping f id = Some cp ∧ Path cp = p.

(** The invariant of the data model: both directions. *)
Definition consistent (f : GenericFileFinder) : Prop :=
  registered f ∧ no_stale f.

(** ** Event concatenation of the inotify file watcher *)

Module Inotify.

(** The raw notifications the test feeds the watcher: [notify.InCloseWrite]
    (a write), [notify.InDelete] (a delete), [notify.InMovedTo] (the file
    arrived at the path by a rename: move-in) and [notify.InMovedFrom]
    (it left the path by a rename: move-out). *)
Inductive Event := InCloseWrite | InDelete | InMovedTo | InMovedFrom.

(** [watch.FileEventType], the tags of the result. *)
Inductive FileEventType := FileEventModify | FileEventMove | FileEventDelete.

#[global] Instance FileEventType_eq_dec : EqDecision FileEventType.
Proof. solve_decision. Defined.

Abbreviation notifyEvents := (list Event).
Abbreviation FileEventTypes := (list FileEventType).

(** The state of the pass: the output stack, top first, and the flag of
    a move-in that waits for its move-out. *)
Record pass := mkPass { stack : FileEventTypes; pendingMoveIn : bool }.

Section engine.
(** The specification classifies a write and a delete and says nothing
    of a move-out that no move-in precedes.  The engine takes that
    decision as a parameter: [None] skips the notification, [Some t]
    treats it as the tag [t]. *)
Variable orphanMoveOut : option FileEventType.

(** Modelled from the spec: the method [concatenateEvents] of
    [FileWatcher] is not among the source files, only its test is.
    [mergeTag] is the merge of a tag against the top of the stack: a
    [FileEventMove] is pushed as it is and nothing is merged into one;
    a delete followed by a write is one modify; a write followed by a
    delete is nothing; a repeated tag stays once. *)
Definition mergeTag (s : FileEventTypes) (t : FileEventType)
    : FileEventTypes :=
  match t, s with
  | FileEventMove, _ => t :: s
  | _, [] => [t]
  | _, FileEventMove :: _ => t :: s
  | FileEventModify, FileEventDelete :: rest => FileEventModify :: rest
  | FileEventDelete, FileEventModify :: rest => rest
  | FileEventDelete, FileEventDelete :: _ => s
  | FileEventModify, FileEventModify :: _ => s
  end.

(** Modelled from the spec: a notification met with no move-in
    pending.  A move-in sets the flag and pushes nothing; a write is
    merged as a modify and a delete as a delete. *)
Definition classify (p : pass) (e : Event) : pass :=
  match e with
  | InMovedTo => mkPass (stack p) true
  | InCloseWrite => mkPass (mergeTag (stack p) FileEventModify) (pendingMoveIn p)
  | InDelete => mkPass (mergeTag (stack p) FileEventDelete) (pendingMoveIn p)
  | InMovedFrom =>
      match orphanMoveOut with
      | None => p
      | Some t => mkPass (mergeTag (stack p) t) (pendingMoveIn p)
      end
  end.

(** Modelled from the spec: one notification of the pass.  With a
    move-in pending, a move-out completes the rename and pushes
    [FileEventMove]; anything else first resolves the pending move-in
    as a modify, by the merge rule that the end of the burst uses as
    well, and is then classified itself. *)
Definition step (p : pass) (e : Event) : pass :=
  if pendingMoveIn p then
    match e with
    | InMovedFrom => mkPass (FileEventMove :: stack p) false
    | _ => classify (mkPass (mergeTag (stack p) FileEventModify) false) e
    end
  else classify p e.

(** Modelled from the spec: after the last notification a move-in
    still pending is resolved as a modify. *)
Definition finish (p : pass) : FileEventTypes :=
  if pendingMoveIn p then mergeTag (stack p) FileEventModify else stack p.

(** Modelled from the spec: the engine, a single pass from left to
    right; the result is the stack from its bottom to its top. *)
Definition concatenateEvents (events : notifyEvents) : FileEventTypes :=
  rev (finish (foldl step (mkPass [] false) events)).
End engine.

(** Modelled from the spec: the raw notifications a tag of the result
    is read as when a result is fed to the engine again. *)
Definition sourceEvents (t : FileEventType) : notifyEvents :=
  match t with
  | FileEventModify => [InCloseWrite]
  | FileEventDelete => [InDelete]
  | FileEventMove => [InMovedTo; InMovedFrom]
  end.

(** Modelled from the spec: a result read again as a burst of raw
    notifications. *)
Definition reexpand (out : FileEventTypes) : notifyEvents :=
  concat (map sourceEvents out).

(** [testEvents] of the test file. *)
Definition testEvents : list notifyEvents :=
  [ [InDelete; InCloseWrite; InMovedTo];
    [InCloseWrite; InDelete; InDelete];
    [InCloseWrite; InMovedTo; InMovedFrom; InDelete];
    [InDelete; InCloseWrite];
    [InCloseWrite; InDelete] ].

(** [targets] of the test file. *)
Definition targets : list FileEventTypes :=
  [ [FileEventModify];
    [FileEventDelete];
    [FileEventModify; FileEventMove; FileEventDelete];
    [FileEventModify];
    [] ].

(** [eventsEqual]: equal lengths and equal tags at every index. *)
Fixpoint eventsEqual (a b : FileEventTypes) : bool :=
  match a, b with
  | [], [] => true
  | x :: a', y :: b' => bool_decide (x = y) && eventsEqual a' b'
  | _, _ => false
  end.

(** [TestEventConcatenation]: [true] when no case reports an error. *)
Definition TestEventConcatenation (orphanMoveOut : option FileEventType)
    : bool :=
  forallb (λ '(e, target),
             eventsEqual (concatenateEvents orphanMoveOut e) target)
          (zip testEvents targets).

(** Two neighbours of a stack are never both different from
    [FileEventMove]. *)
Fixpoint settled (s : FileEventTypes) : bool :=
  match s with
  | a :: (b :: _) as rest =>
      (bool_decide (a = FileEventMove) || bool_decide (b = FileEventMove))
      && settled rest
  | _ => true
  end.

End Inotify.

(** ** Further operations of the file finder *)

(** [ListNamespaces]: the namespaces recorded under the group/kind, read
    from the [raw()] map of its partition.  The only [return] of the Go
    function has a [nil] error. *)
Definition ListNamespaces (f : GenericFileFinder) (gk : GroupKind)
    : error + gset string :=
  let m := Branch.groupKind (branch f) gk in
  inr (list_to_set (map_to_list m).*1).

(** The identities that the entries handed to [ResetMappings] place in
    the file [path]. *)
Definition entriesAt (entries : list (UnversionedObjectID * ChecksumPath))
    (path : string) : UnversionedObjectIDSet :=
  list_to_set (filter (λ e, Path e.2 = path) entries).*1.

(** ** Object conversion ([pkg/serializer/convertor.go]) *)

Module Convertor.

(** [schema.GroupVersionKind] *)
Record GroupVersionKind := mkGVK {
  GVKGroup : string;
  Version : string;
  GVKKind : string
}.

#[global] Instance GroupVersionKind_eq_dec : EqDecision GroupVersionKind.
Proof. solve_decision. Defined.

(** [schema.GroupVersionKind{}], the zero value. *)
Definition zeroGVK : GroupVersionKind := mkGVK "" "" "".

(** [gvk.GroupKind()] *)
Definition GVKGroupKind (gvk : GroupVersionKind) : GroupKind :=
  mkGroupKind (GVKGroup gvk) (GVKKind gvk).

(** The causes handed to [NewCRDConversionError]. *)
Inductive CRDConversionErrorCause :=
  | CRDConversionErrorCauseInvalidArgs
  | CRDConversionErrorCauseSchemeSetup
  | CRDConversionErrorCauseConvertTo
  | CRDConversionErrorCauseConvertFrom.

(** Errors: an error [e] returned by a collaborator (the scheme, a
    [Convertible], the conversion webhook helper), an error made by
    [fmt.Errorf] with its format string and argument, and the value of a
    call [NewCRDConversionError(gvk, cause, err)], which is not among the
    source files and is kept as the record of its three arguments. *)
#[warnings="-register-all"]
Inductive convError (E : Type) :=
  | External (e : E)
  | Errorf (format : string) (arg : option GroupVersionKind)
  | NewCRDConversionError (gvk : option GroupVersionKind)
      (cause : CRDConversionErrorCause) (err : option (convError E)).
Arguments External {E} e.
Arguments Errorf {E} format arg.
Arguments NewCRDConversionError {E} gvk cause err.

(** [objectConvertor]; its scheme is the one the section below fixes. *)
Record objectConvertor := mkObjectConvertor { doConvertToHub : bool }.

(** [newObjectConvertor(scheme, convertToHub)] *)
Definition newObjectConvertor (convertToHub : bool) : objectConvertor :=
  mkObjectConvertor convertToHub.

Section convertor.
(** Runtime objects, the errors of the collaborators and the conversion
    context. *)
Context {Object E Ctx : Type}.

(** The type assertions [x.(conversion.Convertible)] and
    [x.(conversion.Hub)]. *)
Variable isConvertible : Object → bool.
Variable isHub : Object → bool.

(** [in.ConvertTo(out)] and [out.ConvertFrom(in)] of a [Convertible]: the
    object written to, after the call, and the error. *)
Variable ConvertTo : Object → Object → Object * option E.
Variable ConvertFrom : Object → Object → Object * option E.

(** The scheme: [scheme.Convert(in, out, context)] (the out object after
    the call, and the error), [scheme.New(gvk)],
    [scheme.ConvertToVersion(in, runtime.InternalGroupVersioner)] and
    [scheme.AllKnownTypes()] in the order one [range] visits it. *)
Variable schemeConvert : Object → Object → option Ctx → Object * option E.
Variable schemeNew : GroupVersionKind → E + Object.
Variable schemeConvertToVersion : Object → E + Object.
Variable AllKnownTypes : list GroupVersionKind.

(** [gvkForObject(scheme, obj)], a helper of the package that is not among
    the source files, and [webhookconversion.IsConvertible(scheme, obj)]. *)
Variable gvkForObject : Object → convError E + GroupVersionKind.
Variable IsConvertible : Object → E + bool.

(** [obj.GetObjectKind().SetGroupVersionKind(gvk)], [obj.DeepCopyObject()]
    and [gk.String()]. *)
Variable SetGroupVersionKind : Object → GroupVersionKind → Object.
Variable DeepCopyObject : Object → Object.
Variable GroupKindString : GroupKind → string.

(** [validateConvertible]: the gvk of the object and the error. *)
Definition validateConvertible (obj : Object)
    : GroupVersionKind * option (convError E) :=
  match gvkForObject obj with
  | inl err => (zeroGVK, Some err)
  | inr gvk =>
      match IsConvertible obj with
      | inl err =>
          (gvk, Some (NewCRDConversionError (Some gvk)
                        CRDConversionErrorCauseSchemeSetup
                        (Some (External err))))
      | inr false =>
          (gvk, Some (NewCRDConversionError (Some gvk)
                        CRDConversionErrorCauseSchemeSetup None))
      | inr true => (gvk, None)
      end
  end.

(** The test one pass of the loop of [findHubType] makes on a known
    type: the same group/kind string, another version, an object that the
    scheme can create and that is a [Hub]. *)
Definition hubCandidate (currentGVK gvk : GroupVersionKind)
    : option Object :=
  if negb (String.eqb (GroupKindString (GVKGroupKind gvk))
                      (GroupKindString (GVKGroupKind currentGVK)))
  then None
  else if String.eqb (Version gvk) (Version currentGVK) then None
  else match schemeNew gvk with
       | inl _ => None
       | inr obj => if isHub obj then Some obj else None
       end.

(** The loop of [findHubType] over the known types: the first type that
    passes the test, or the error after the loop. *)
Fixpoint findHubTypeIn (known : list GroupVersionKind)
    (currentGVK : GroupVersionKind)
    : convError E + Object * GroupVersionKind :=
  match known with
  | [] =>
      inl (Errorf "no matching Hub target type for convertible of gvk %s"
                  (Some currentGVK))
  | gvk :: rest =>
      match hubCandidate currentGVK gvk with
      | Some hubObj => inr (hubObj, gvk)
      | None => findHubTypeIn rest currentGVK
      end
  end.

(** [findHubType(currentGVK, scheme)].  On the error return the results
    [hub] and [hubGVK] of the Go function are their zero values. *)
Definition findHubType (currentGVK : GroupVersionKind)
    : convError E + Object * GroupVersionKind :=
  findHubTypeIn AllKnownTypes currentGVK.

(** [populateGVK]: the object after the call, and the error. *)
Definition populateGVK (obj : Object) : Object * option (convError E) :=
  match gvkForObject obj with
  | inl err => (obj, Some err)
  | inr gvk => (SetGroupVersionKind obj gvk, None)
  end.

(** [convertIntoHub(in, out)]: the out object after the call, and the
    error. *)
Definition convertIntoHub (in_ out : Object)
    : Object * option (convError E) :=
  match validateConvertible in_ with
  | (_, Some err) => (out, Some err)
  | (inGVK, None) =>
      match ConvertTo in_ out with
      | (out', Some err) =>
          (out', Some (NewCRDConversionError (Some inGVK)
                         CRDConversionErrorCauseConvertTo
                         (Some (External err))))
      | (out', None) => populateGVK out'
      end
  end.

(** [convertFromHub(in, out)] *)
Definition convertFromHub (in_ out : Object)
    : Object * option (convError E) :=
  match validateConvertible out with
  | (_, Some err) => (out, Some err)
  | (outGVK, None) =>
      match ConvertFrom out in_ with
      | (out', Some err) =>
          (out', Some (NewCRDConversionError (Some outGVK)
                         CRDConversionErrorCauseConvertFrom
                         (Some (External err))))
      | (out', None) => populateGVK out'
      end
  end.

(** [objectConvertor.Convert(in, out, context)]: the out object after the
    call, and the error. *)
Definition Convert (c : objectConvertor) (in_ out : Object)
    (context : option Ctx) : Object * option (convError E) :=
  if isConvertible in_ then
    if isHub out then convertIntoHub in_ out
    else (out, Some (NewCRDConversionError None
                       CRDConversionErrorCauseInvalidArgs
                       (Some (Errorf
                          "if in object is Convertible, out must be Hub"
                          None))))
  else if isConvertible out then
    if isHub in_ then convertFromHub in_ out
    else (out, Some (NewCRDConversionError None
                       CRDConversionErrorCauseInvalidArgs
                       (Some (Errorf
                          "if out object is Convertible, in must be Hub"
                          None))))
  else
    let r := schemeConvert in_ out context in (r.1, External <$> r.2).

(** [convertToHub(in)] *)
Definition convertToHub (in_ : Object) : convError E + Object :=
  match validateConvertible in_ with
  | (_, Some err) => inl err
  | (currentGVK, None) =>
      match findHubType currentGVK with
      | inl err =>
          (* targetGVK is the zero value here *)
          inl (NewCRDConversionError (Some zeroGVK)
                 CRDConversionErrorCauseSchemeSetup (Some err))
      | inr (hub, targetGVK) =>
          match ConvertTo in_ hub with
          | (_, Some err) =>
              inl (NewCRDConversionError (Some targetGVK)
                     CRDConversionErrorCauseConvertTo
                     (Some (External err)))
          | (hub', None) => inr (SetGroupVersionKind hub' targetGVK)
          end
      end
  end.

(** [objectConvertor.ConvertToVersion(in, _)] *)
Definition ConvertToVersion (c : objectConvertor) (in_ : Object)
    : convError E + Object :=
  if negb (doConvertToHub c) then inr (DeepCopyObject in_)
  else if isConvertible in_ then convertToHub in_
  else match schemeConvertToVersion in_ with
       | inl err => inl (External err)
       | inr obj => inr obj
       end.

(** [converter.ConvertToHub], on the convertor that [newConverter]
    builds with [newObjectConvertor(scheme, true)]. *)
Definition ConvertToHub (in_ : Object) : convError E + Object :=
  ConvertToVersion (newObjectConvertor true) in_.

(** [converter.ConvertIntoNew(in, gvk)] *)
Definition ConvertIntoNew (in_ : Object) (gvk : GroupVersionKind)
    : convError E + Object :=
  match schemeNew gvk with
  | inl err => inl (External err)
  | inr obj =>
      match Convert (newObjectConvertor true) in_ obj None with
      | (_, Some err) => inl err
      | (obj', None) => inr obj'
      end
  end.

End convertor.

End Convertor.

(** A small scheme to run the conversion on: the kind [Car] with the
    convertible version [v1alpha1] and the hub version [v1]. *)
Module ConvertorSample.
Import Convertor.

Record sampleObject := mkSample { sGVK : GroupVersionKind; sSpec : string }.

Definition carV1alpha1 : GroupVersionKind :=
  mkGVK "sample.libgitops" "v1alpha1" "Car".
Definition carV1 : GroupVersionKind := mkGVK "sample.libgitops" "v1" "Car".

Definition isConvertible (o : sampleObject) : bool :=
  String.eqb (Version (sGVK o)) "v1alpha1".
Definition isHub (o : sampleObject) : bool :=
  String.eqb (Version (sGVK o)) "v1".
Definition ConvertTo (in_ out : sampleObject)
    : sampleObject * option string :=
  (mkSample (sGVK out) (sSpec in_), None).
Definition ConvertFrom (out in_ : sampleObject)
    : sampleObject * option string :=
  (mkSample (sGVK out) (sSpec in_), None).
Definition schemeNew (gvk : GroupVersionKind) : string + sampleObject :=
  if bool_decide (gvk = carV1alpha1) || bool_decide (gvk = carV1)
  then inr (mkSample gvk "") else inl "no kind is registered".
Definition AllKnownTypes : list GroupVersionKind := [carV1alpha1; carV1].
Definition gvkForObject (o : sampleObject)
    : convError string + GroupVersionKind :=
  inr (sGVK o).
Definition IsConvertible (o : sampleObject) : string + bool := inr true.
Definition SetGroupVersionKind (o : sampleObject) (gvk : GroupVersionKind)
    : sampleObject :=
  mkSample gvk (sSpec o).
Definition GroupKindString (gk : GroupKind) : string :=
  Kind gk ++ "." ++ Group gk.
Definition schemeConvert (in_ out : sampleObject) (context : option unit)
    : sampleObject * option string :=
  (mkSample (sGVK out) (sSpec in_), None).

(** A [v1alpha1] car. *)
Definition oldCar : sampleObject := mkSample carV1alpha1 "brand: volvo".

End ConvertorSample.

(** ** Lemmas on the branch *)

Section branch_lemmas.
Context (b : Branch.branchImpl).
Implicit Types (id : UnversionedObjectID) (cp : ChecksumPath).

Lemma branch_lookup_empty id : Branch.lookup Branch.empty id = None.
Proof.
  unfold Branch.lookup, Branch.name, Branch.namespace, Branch.groupKind,
    Branch.empty.
  by rewrite !lookup_empty.
Qed.

Lemma branch_lookup_setName_eq id cp :
  Branch.lookup
    (Branch.setName b (IDGroupKind id) (Namespace (IDObjectKey id))
       (Name (IDObjectKey id)) cp) id = Some cp.
Proof.
  unfold Branch.lookup, Branch.setName, Branch.name, Branch.namespace,
    Branch.groupKind.
  by repeat (rewrite lookup_insert_eq; simpl).
Qed.

Lemma branch_lookup_setName_ne id id' cp :
  id ≠ id' →
  Branch.lookup
    (Branch.setName b (IDGroupKind id) (Namespace (IDObjectKey id))
       (Name (IDObjectKey id)) cp) id' = Branch.lookup b id'.
Proof.
  destruct id as [gk [nm ns]], id' as [gk' [nm' ns']]; simpl.
  intros Hne.
  unfold Branch.lookup, Branch.setName, Branch.name, Branch.namespace,
    Branch.groupKind; simpl.
  destruct (decide (gk = gk')) as [->|Hgk];
    [rewrite lookup_insert_eq|by rewrite lookup_insert_ne]; simpl.
  destruct (decide (ns = ns')) as [->|Hns];
    [rewrite lookup_insert_eq|by rewrite lookup_insert_ne]; simpl.
  rewrite lookup_insert_ne; [done|congruence].
Qed.

Lemma branch_lookup_deleteName_eq id :
  Branch.lookup
    (Branch.deleteName b (IDGroupKind id) (Namespace (IDObjectKey id))
       (Name (IDObjectKey id))) id = None.
Proof.
  unfold Branch.lookup, Branch.deleteName, Branch.name, Branch.namespace,
    Branch.groupKind.
  repeat (rewrite lookup_insert_eq; simpl). by rewrite lookup_delete_eq.
Qed.

Lemma branch_lookup_deleteName_ne id id' :
  id ≠ id' →
  Branch.lookup
    (Branch.deleteName b (IDGroupKind id) (Namespace (IDObjectKey id))
       (Name (IDObjectKey id))) id' = Branch.lookup b id'.
Proof.
  destruct id as [gk [nm ns]], id' as [gk' [nm' ns']]; simpl.
  intros Hne.
  unfold Branch.lookup, Branch.deleteName, Branch.name, Branch.namespace,
    Branch.groupKind; simpl.
  destruct (decide (gk = gk')) as [->|Hgk];
    [rewrite lookup_insert_eq|by rewrite lookup_insert_ne]; simpl.
  destruct (decide (ns = ns')) as [->|Hns];
    [rewrite lookup_insert_eq|by rewrite lookup_insert_ne]; simpl.
  rewrite lookup_delete_ne; [done|congruence].
Qed.
End branch_lemmas.

(** ** Lemmas on single calls *)

Section call_lemmas.
Context (f : GenericFileFinder).
Implicit Types (id : UnversionedObjectID) (cp : ChecksumPath) (p : string).

Lemma GetMapping_new id : GetMapping NewGenericFileFinder id = None.
Proof. apply branch_lookup_empty. Qed.

Lemma GetMapping_SetMapping_eq id cp :
  GetMapping (SetMapping f id cp) id = Some cp.
Proof. apply branch_lookup_setName_eq. Qed.

Lemma GetMapping_SetMapping_ne id id' cp :
  id ≠ id' → GetMapping (SetMapping f id cp) id' = GetMapping f id'.
Proof. apply branch_lookup_setName_ne. Qed.

(** The identity set of the written path gains [id]. *)
Lemma pathToIDs_SetMapping_eq id cp :
  pathToIDs (SetMapping f id cp) !! Path cp
  = Some ({[id]} ∪ default ∅ (pathToIDs f !! Path cp)).
Proof.
  unfold SetMapping; simpl.
  destruct (pathToIDs f !! Path cp) as [ids|] eqn:E; simpl.
  - by rewrite lookup_alter_eq, E.
  - by rewrite lookup_alter_eq, lookup_insert_eq.
Qed.

(** Every other path keeps its identity set, the previous path of [id]
    included. *)
Lemma pathToIDs_SetMapping_ne id cp p :
  p ≠ Path cp → pathToIDs (SetMapping f id cp) !! p = pathToIDs f !! p.
Proof.
  intros Hne. unfold SetMapping; simpl.
  rewrite lookup_alter_ne by done.
  destruct (pathToIDs f !! Path cp); [done|].
  by rewrite lookup_insert_ne.
Qed.

Lemma DeleteMapping_untracked id :
  GetMapping f id = None → DeleteMapping f id = f.
Proof. unfold DeleteMapping, GetMapping. by intros ->. Qed.

Lemma GetMapping_DeleteMapping_eq id :
  GetMapping (DeleteMapping f id) id = None.
Proof.
  unfold DeleteMapping.
  destruct (getMapping f id) as [cp|] eqn:E; [|done].
  apply branch_lookup_deleteName_eq.
Qed.

Lemma GetMapping_DeleteMapping_ne id id' :
  id ≠ id' → GetMapping (DeleteMapping f id) id' = GetMapping f id'.
Proof.
  intros Hne. unfold DeleteMapping.
  destruct (getMapping f id) as [cp|] eqn:E; [|done].
  by apply branch_lookup_deleteName_ne.
Qed.

(** The identity set of the path [id] was mapped to loses [id], and the
    entry goes when nothing is left. *)
Lemma pathToIDs_DeleteMapping_eq id cp :
  GetMapping f id = Some cp →
  pathToIDs (DeleteMapping f id) !! Path cp
  = match pathToIDs f !! Path cp with
    | None => None
    | Some ids => if decide (ids ∖ {[id]} = ∅) then None
                  else Some (ids ∖ {[id]})
    end.
Proof.
  unfold DeleteMapping, GetMapping. intros ->.
  cbn [pathToIDs]. unfold pathLen. rewrite lookup_alter_eq.
  destruct (pathToIDs f !! Path cp) as [ids|] eqn:E;
    cbn [fmap option_fmap option_map default].
  - destruct (decide (ids ∖ {[id]} = ∅)) as [He|He].
    + rewrite decide_True by (by rewrite He, size_empty).
      by rewrite lookup_delete_eq.
    + rewrite decide_False by (by intros ?%size_empty_inv%leibniz_equiv).
      by rewrite lookup_alter_eq, E.
  - rewrite decide_True by (by rewrite size_empty).
    by rewrite lookup_delete_eq.
Qed.

Lemma pathToIDs_DeleteMapping_ne id cp p :
  GetMapping f id = Some cp → p ≠ Path cp →
  pathToIDs (DeleteMapping f id) !! p = pathToIDs f !! p.
Proof.
  unfold DeleteMapping, GetMapping. intros -> Hne; simpl.
  destruct (decide _).
  - rewrite lookup_delete_ne by done. by rewrite lookup_alter_ne.
  - by rewrite lookup_alter_ne.
Qed.
End call_lemmas.

(** ** Facts on the invariants *)

Lemma registered_new : registered NewGenericFileFinder.
Proof. intros id cp. by rewrite GetMapping_new. Qed.

Lemma registered_SetMapping f id0 cp0 :
  registered f → registered (SetMapping f id0 cp0).
Proof.
  intros Hf id cp Hget.
  destruct (decide (id0 = id)) as [->|Hid].
  - rewrite GetMapping_SetMapping_eq in Hget. injection Hget as <-.
    rewrite pathToIDs_SetMapping_eq. eexists; split; [done|set_solver].
  - rewrite GetMapping_SetMapping_ne in Hget by done.
    destruct (Hf _ _ Hget) as (ids & Hids & Hin).
    destruct (decide (Path cp = Path cp0)) as [Hp|Hp].
    + rewrite Hp, pathToIDs_SetMapping_eq, <- Hp, Hids.
      eexists; split; [done|]. simpl. set_solver.
    + rewrite pathToIDs_SetMapping_ne by done. eauto.
Qed.

Lemma registered_DeleteMapping f id0 :
  registered f → registered (DeleteMapping f id0).
Proof.
  intros Hf id cp Hget.
  destruct (GetMapping f id0) as [cp0|] eqn:E0;
    [|rewrite DeleteMapping_untracked in * by done; eauto].
  destruct (decide (id0 = id)) as [->|Hid];
    [by rewrite GetMapping_DeleteMapping_eq in Hget|].
  rewrite GetMapping_DeleteMapping_ne in Hget by done.
  destruct (Hf _ _ Hget) as (ids & Hids & Hin).
  destruct (decide (Path cp = Path cp0)) as [Hp|Hp].
  - rewrite Hp, (pathToIDs_DeleteMapping_eq _ _ _ E0), <- Hp, Hids.
    rewrite decide_False by set_solver.
    eexists; split; [done|set_solver].
  - rewrite (pathToIDs_DeleteMapping_ne _ _ _ _ E0) by done. eauto.
Qed.

Lemma no_empty_set_new : no_empty_set NewGenericFileFinder.
Proof. intros p ids. simpl. by rewrite lookup_empty. Qed.

Lemma no_empty_set_SetMapping f id0 cp0 :
  no_empty_set f → no_empty_set (SetMapping f id0 cp0).
Proof.
  intros Hf p ids.
  destruct (decide (p = Path cp0)) as [->|Hp].
  - rewrite pathToIDs_SetMapping_eq. intros [= <-]. set_solver.
  - rewrite pathToIDs_SetMapping_ne by done. apply Hf.
Qed.

Lemma no_empty_set_DeleteMapping f id0 :
  no_empty_set f → no_empty_set (DeleteMapping f id0).
Proof.
  intros Hf p ids.
  destruct (GetMapping f id0) as [cp0|] eqn:E0;
    [|rewrite DeleteMapping_untracked by done; apply Hf].
  destruct (decide (p = Path cp0)) as [->|Hp].
  - rewrite (pathToIDs_DeleteMapping_eq _ _ _ E0).
    destruct (pathToIDs f !! Path cp0) as [ids0|]; [|done].
    case_decide; [done|]. by intros [= <-].
  - rewrite (pathToIDs_DeleteMapping_ne _ _ _ _ E0) by done. apply Hf.
Qed.

(** A property kept by [SetMapping] is kept by the loop of
    [ResetMappings]. *)
Lemma foldl_SetMapping_ind (P : GenericFileFinder → Prop) :
  (∀ f id cp, P f → P (SetMapping f id cp)) →
  ∀ entries f, P f → P (foldl (λ f' e, SetMapping f' e.1 e.2) f entries).
Proof.
  intros Hstep entries.
  induction entries as [|[id cp] entries IH]; intros f Hf; simpl; auto.
Qed.

Lemma registered_ResetMappings f entries :
  registered (ResetMappings f entries).
Proof.
  unfold ResetMappings.
  apply (foldl_SetMapping_ind registered).
  - intros ????. by apply registered_SetMapping.
  - intros id cp. unfold GetMapping, getMapping; simpl.
    by rewrite branch_lookup_empty.
Qed.

Lemma no_empty_set_ResetMappings f entries :
  no_empty_set f → no_empty_set (ResetMappings f entries).
Proof.
  intros Hf. unfold ResetMappings.
  apply (foldl_SetMapping_ind no_empty_set).
  - intros ????. by apply no_empty_set_SetMapping.
  - exact Hf.
Qed.

Lemma reachable_registered f : reachable f → registered f.
Proof.
  induction 1;
    auto using registered_new, registered_SetMapping,
      registered_DeleteMapping, registered_ResetMappings.
Qed.

Lemma reachable_no_empty_set f : reachable f → no_empty_set f.
Proof.
  induction 1;
    auto using no_empty_set_new, no_empty_set_SetMapping,
      no_empty_set_DeleteMapping, no_empty_set_ResetMappings.
Qed.

(** On a state built from the empty finder, [DeleteMapping] of a mapped
    identity finds the identity set of its path. *)
Lemma reachable_entry_present f id cp :
  reachable f → getMapping f id = Some cp →
  ∃ ids, pathToIDs f !! Path cp = Some ids ∧ id ∈ ids.
Proof. intros Hf Hget. by apply (reachable_registered f Hf). Qed.

Lemma reachable_set_delete_reachable f :
  reachable_set_delete f → reachable f.
Proof. induction 1; eauto using reachable. Qed.

(** ** The loop of [ResetMappings] on the branch *)

Section reset_loop.
Implicit Types (entries : list (UnversionedObjectID * ChecksumPath)).

Lemma GetMapping_foldl_notin entries f id :
  id ∉ entries.*1 →
  GetMapping (foldl (λ f' e, SetMapping f' e.1 e.2) f entries) id
  = GetMapping f id.
Proof.
  revert f. induction entries as [|[id0 cp0] entries IH]; intros f Hid;
    simpl in *; [done|].
  apply not_elem_of_cons in Hid as [Hne Hid].
  rewrite IH by done. by apply GetMapping_SetMapping_ne.
Qed.

Lemma GetMapping_foldl_in entries f id cp :
  NoDup entries.*1 → (id, cp) ∈ entries →
  GetMapping (foldl (λ f' e, SetMapping f' e.1 e.2) f entries) id
  = Some cp.
Proof.
  revert f. induction entries as [|[id0 cp0] entries IH]; intros f Hnd Hin;
    simpl in *; [by apply elem_of_nil in Hin|].
  apply NoDup_cons in Hnd as [Hfresh Hnd].
  apply elem_of_cons in Hin as [[= <- <-]|Hin].
  - rewrite GetMapping_foldl_notin by done.
    apply GetMapping_SetMapping_eq.
  - by apply IH.
Qed.

Lemma enumerates_NoDup entries m : enumerates entries m → NoDup entries.*1.
Proof.
  unfold enumerates. intros ->. apply NoDup_fst_map_to_list.
Qed.

Lemma enumerates_elem_of entries m id cp :
  enumerates entries m → (id, cp) ∈ entries ↔ m !! id = Some cp.
Proof.
  unfold enumerates. intros ->. apply elem_of_map_to_list.
Qed.
End reset_loop.

(** ** Facts on the event concatenation *)

Module InotifyProofs.
Import Inotify.

Lemma settled_tail a s : settled (a :: s) = true → settled s = true.
Proof. destruct s as [|b s]; [done|]. simpl. by intros [_ ?]%andb_prop. Qed.

Lemma settled_mergeTag s t : settled s = true → settled (mergeTag s t) = true.
Proof.
  intros Hs.
  destruct t, s as [|[] [|[] s]]; simpl in *; try done;
    try (by apply settled_tail in Hs).
Qed.

Lemma settled_push_move s :
  settled s = true → settled (FileEventMove :: s) = true.
Proof. by destruct s. Qed.

Lemma settled_classify o p e :
  settled (stack p) = true → settled (stack (classify o p e)) = true.
Proof.
  intros Hp. unfold classify.
  destruct e; [by apply settled_mergeTag..|done|].
  destruct o; [by apply settled_mergeTag|done].
Qed.

Lemma settled_step o p e :
  settled (stack p) = true → settled (stack (step o p e)) = true.
Proof.
  intros Hp. unfold step. destruct (pendingMoveIn p).
  - destruct e;
      [apply settled_classify; by apply settled_mergeTag..|].
    by apply settled_push_move.
  - by apply settled_classify.
Qed.

Lemma settled_pass o events p :
  settled (stack p) = true →
  settled (stack (foldl (step o) p events)) = true.
Proof.
  revert p. induction events as [|e events IH]; intros p Hp; simpl; [done|].
  by apply IH, settled_step.
Qed.

Lemma settled_finish p :
  settled (stack p) = true → settled (finish p) = true.
Proof.
  intros Hp. unfold finish.
  destruct (pendingMoveIn p); [by apply settled_mergeTag|done].
Qed.

Lemma settled_concatenateEvents o events :
  settled (rev (concatenateEvents o events)) = true.
Proof.
  unfold concatenateEvents. rewrite rev_involutive.
  by apply settled_finish, settled_pass.
Qed.

Lemma settled_app_r s1 s2 : settled (s1 ++ s2) = true → settled s2 = true.
Proof.
  induction s1 as [|a s1 IH]; simpl; [done|].
  intros H. apply IH. by apply (settled_tail a).
Qed.

(** The notifications of one tag, run on a stack the tag settles on, push
    exactly that tag. *)
Lemma step_sourceEvents o t s :
  settled (t :: s) = true →
  foldl (step o) (mkPass s false) (sourceEvents t) = mkPass (t :: s) false.
Proof.
  destruct t, s as [|[] s]; simpl; try done.
Qed.

Lemma pass_reexpand o out s :
  settled (rev out ++ s) = true →
  foldl (step o) (mkPass s false) (reexpand out) = mkPass (rev out ++ s) false.
Proof.
  revert s. induction out as [|t out IH]; intros s Hs; [done|].
  unfold reexpand in *. simpl in *.
  rewrite <- app_assoc in Hs |- *. simpl in *.
  rewrite foldl_app, step_sourceEvents by (by apply settled_app_r in Hs).
  by apply IH.
Qed.

Lemma concatenateEvents_reexpand o out :
  settled (rev out) = true → concatenateEvents o (reexpand out) = out.
Proof.
  intros Hs. unfold concatenateEvents.
  rewrite <- (app_nil_r (rev out)) in Hs.
  rewrite pass_reexpand by done. unfold finish; cbn [pendingMoveIn stack].
  rewrite app_nil_r. apply rev_involutive.
Qed.

(** C5: on the five bursts of the test, [Delete, Write, MoveIn],
    [Write, Delete, Delete], [Write, MoveIn, MoveOut, Delete],
    [Delete, Write] and [Write, Delete], the engine returns exactly
    [Modify], [Delete], [Modify, Move, Delete], [Modify] and the empty
    sequence, and [TestEventConcatenation] reports no error. *)
Theorem concatenateEvents_testEvents (o : option FileEventType) :
  concatenateEvents o [InDelete; InCloseWrite; InMovedTo]
    = [FileEventModify]
  ∧ concatenateEvents o [InCloseWrite; InDelete; InDelete]
    = [FileEventDelete]
  ∧ concatenateEvents o [InCloseWrite; InMovedTo; InMovedFrom; InDelete]
    = [FileEventModify; FileEventMove; FileEventDelete]
  ∧ concatenateEvents o [InDelete; InCloseWrite] = [FileEventModify]
  ∧ concatenateEvents o [InCloseWrite; InDelete] = []
  ∧ map (concatenateEvents o) testEvents = targets
  ∧ TestEventConcatenation o = true.
Proof. repeat split; reflexivity. Qed.

(** C7: for every burst of raw notifications, the engine run on the
    re-expansion of its own result (a modify read as a write, a delete as
    a delete, a move as a move-in followed by a move-out) returns that
    result unchanged. *)
Theorem concatenateEvents_idempotent (o : option FileEventType)
    (events : notifyEvents) :
  concatenateEvents o (reexpand (concatenateEvents o events))
  = concatenateEvents o events.
Proof.
  apply concatenateEvents_reexpand, settled_concatenateEvents.
Qed.

End InotifyProofs.

(** ** The sample states *)

Lemma pathToIDs_new p : pathToIDs NewGenericFileFinder !! p = None.
Proof. apply lookup_empty. Qed.

Lemma reachable_finderA : reachable_set_delete finderA.
Proof. apply rsd_set, rsd_new. Qed.

Lemma reachable_finderAB : reachable_set_delete finderAB.
Proof. apply rsd_set, reachable_finderA. Qed.

Lemma GetMapping_finderA : GetMapping finderA car1 = Some cpA.
Proof. apply GetMapping_SetMapping_eq. Qed.

Lemma GetMapping_finderAB : GetMapping finderAB car1 = Some cpB.
Proof. apply GetMapping_SetMapping_eq. Qed.

Lemma pathToIDs_finderA_a : pathToIDs finderA !! "a.yaml" = Some {[car1]}.
Proof.
  etrans; [apply (pathToIDs_SetMapping_eq NewGenericFileFinder car1 cpA)|].
  rewrite pathToIDs_new. cbn [default]. by rewrite (right_id_L ∅ (∪)).
Qed.

Lemma pathToIDs_finderA_b : pathToIDs finderA !! "b.yaml" = None.
Proof.
  etrans; [apply (pathToIDs_SetMapping_ne NewGenericFileFinder car1 cpA)|].
  - discriminate.
  - apply pathToIDs_new.
Qed.

Lemma pathToIDs_finderAB_a : pathToIDs finderAB !! "a.yaml" = Some {[car1]}.
Proof.
  etrans; [apply (pathToIDs_SetMapping_ne finderA car1 cpB)|].
  - discriminate.
  - apply pathToIDs_finderA_a.
Qed.

Lemma pathToIDs_finderAB_b : pathToIDs finderAB !! "b.yaml" = Some {[car1]}.
Proof.
  etrans; [apply (pathToIDs_SetMapping_eq finderA car1 cpB)|].
  change (Path cpB) with "b.yaml". rewrite pathToIDs_finderA_b.
  cbn [default]. by rewrite (right_id_L ∅ (∪)).
Qed.

(** X21: [SetMapping] is idempotent: a second call with the same
    identity and the same checksum path changes nothing. *)
Lemma SetMapping_idempotent f id cp :
  SetMapping (SetMapping f id cp) id cp = SetMapping f id cp.
Proof.
  assert (Hp : pathToIDs (SetMapping (SetMapping f id cp) id cp)
               = pathToIDs (SetMapping f id cp)).
  { apply map_eq. intros p. destruct (decide (p = Path cp)) as [->|Hne].
    - rewrite !pathToIDs_SetMapping_eq. unfold default at 1.
      cbn [from_option Datatypes.id]. f_equal.
      by rewrite (assoc_L (∪)), union_idemp_L.
    - by rewrite !pathToIDs_SetMapping_ne. }
  assert (Hb : branch (SetMapping (SetMapping f id cp) id cp)
               = branch (SetMapping f id cp)).
  { unfold SetMapping; cbn [branch].
    unfold Branch.setName, Branch.groupKind, Branch.namespace.
    repeat (rewrite lookup_insert_eq; simpl).
    by rewrite !insert_insert_eq. }
  destruct (SetMapping (SetMapping f id cp) id cp), (SetMapping f id cp).
  simpl in *. congruence.
Qed.

(** On a state where no identity is listed under a foreign path,
    [DeleteMapping] leaves the identity under no path at all. *)
Lemma DeleteMapping_no_stale f id p ids :
  no_stale f → pathToIDs (DeleteMapping f id) !! p = Some ids → id ∉ ids.
Proof.
  intros Hf Hp Hin.
  destruct (GetMapping f id) as [cp|] eqn:E.
  - destruct (decide (p = Path cp)) as [->|Hne].
    + rewrite (pathToIDs_DeleteMapping_eq _ _ _ E) in Hp.
      destruct (pathToIDs f !! Path cp); [|done].
      case_decide; [done|]. injection Hp as Hp. subst ids.
      apply elem_of_difference in Hin as [_ Hn].
      apply Hn. by apply elem_of_singleton.
    + rewrite (pathToIDs_DeleteMapping_ne _ _ _ _ E) in Hp by done.
      destruct (Hf _ _ _ Hp Hin) as (cp' & Hcp' & <-). congruence.
  - rewrite DeleteMapping_untracked in Hp by done.
    destruct (Hf _ _ _ Hp Hin) as (cp' & Hcp' & _). congruence.
Qed.

(** ** The claims on the mapping cache *)

(** C1: the two views are not mutually consistent after every sequence
    of [SetMapping] and [DeleteMapping] calls.  Two [SetMapping] calls on
    the empty cache, the second moving [car1] from [a.yaml] to [b.yaml],
    leave [car1] mapped to [b.yaml] and still listed under [a.yaml]. *)
Theorem SetMapping_twice_not_consistent :
  reachable_set_delete finderAB
  ∧ GetMapping finderAB car1 = Some cpB
  ∧ pathToIDs finderAB !! "a.yaml" = Some {[car1]}
  ∧ ¬ consistent finderAB.
Proof.
  split; [apply reachable_finderAB|].
  split; [apply GetMapping_finderAB|].
  split; [apply pathToIDs_finderAB_a|].
  intros [_ Hstale].
  destruct (Hstale "a.yaml" {[car1]} car1) as (cp & Hcp & Hpath).
  - apply pathToIDs_finderAB_a.
  - by apply elem_of_singleton.
  - rewrite GetMapping_finderAB in Hcp. injection Hcp as <-. discriminate.
Qed.

(** C2: [SetMapping] on an identity mapped to another path returns the
    new mapping from [GetMapping] and lists the identity under the new
    path, but it neither removes the identity from the identity set of the
    old path nor prunes that set: with [car1] moved from [a.yaml] to
    [b.yaml], [ObjectsAt] still returns [car1] for [a.yaml]. *)
Theorem SetMapping_keeps_old_path :
  GetMapping finderA car1 = Some cpA
  ∧ GetMapping (SetMapping finderA car1 cpB) car1 = Some cpB
  ∧ ObjectsAt (SetMapping finderA car1 cpB) "b.yaml" = inr {[car1]}
  ∧ ObjectsAt (SetMapping finderA car1 cpB) "a.yaml" = inr {[car1]}.
Proof.
  split; [apply GetMapping_finderA|].
  split; [apply GetMapping_finderAB|].
  unfold ObjectsAt. fold finderAB.
  by rewrite pathToIDs_finderAB_a, pathToIDs_finderAB_b.
Qed.

(** C3: [ResetMappings] does not leave exactly the given mappings in the
    path view.  After [car1] was registered in [a.yaml], resetting to the
    empty map keeps [a.yaml] tracked with [car1], and resetting to the map
    that sends only [car2] to [a.yaml] makes [ObjectsAt] return both
    [car1] and [car2] for [a.yaml]. *)
Theorem ResetMappings_keeps_old_paths :
  enumerates [] ∅
  ∧ ObjectsAt (ResetMappings finderA []) "a.yaml" = inr {[car1]}
  ∧ GetMapping (ResetMappings finderA []) car1 = None
  ∧ enumerates [(car2, cpA)] {[car2 := cpA]}
  ∧ ObjectsAt (ResetMappings finderA [(car2, cpA)]) "a.yaml"
    = inr ({[car2]} ∪ {[car1]})
  ∧ GetMapping (ResetMappings finderA [(car2, cpA)]) car1 = None.
Proof.
  assert (Ha : pathToIDs (mkFinder Branch.empty (pathToIDs finderA))
               !! "a.yaml" = Some {[car1]}) by apply pathToIDs_finderA_a.
  split; [unfold enumerates; by rewrite map_to_list_empty|].
  split; [unfold ObjectsAt, ResetMappings; cbn [foldl]; by rewrite Ha|].
  split; [apply branch_lookup_empty|].
  split; [unfold enumerates; by rewrite map_to_list_singleton|].
  split.
  - unfold ObjectsAt, ResetMappings; cbn [foldl fst snd].
    change "a.yaml" with (Path cpA) at 1.
    rewrite pathToIDs_SetMapping_eq.
    change (Path cpA) with "a.yaml". by rewrite Ha.
  - unfold ResetMappings; cbn [foldl fst snd].
    rewrite GetMapping_SetMapping_ne by discriminate.
    apply branch_lookup_empty.
Qed.

(** C4: [ListObjectIDs] has no failing return: for every state, group/kind
    and namespace it returns a set of identities.  For the root-spaced
    kind [Car] and the namespace [default] on the empty cache it returns
    the empty set and no error. *)
Theorem ListObjectIDs_never_fails :
  (∀ f gk namespace, ∃ ids, ListObjectIDs f gk namespace = inr ids)
  ∧ ListObjectIDs NewGenericFileFinder carKind "default" = inr ∅.
Proof.
  split; [intros f gk namespace; by eexists|].
  unfold ListObjectIDs, NewGenericFileFinder, Branch.raw, Branch.namespace,
    Branch.groupKind, Branch.empty; cbn [branch].
  rewrite lookup_empty; cbn [default from_option].
  rewrite lookup_empty; cbn [default from_option].
  by rewrite map_to_list_empty.
Qed.

(** C6: after [ResetMappings] with the map [m], ranged over in any order,
    [GetMapping] returns [m !! id] for every identity: the entry of [m]
    when there is one, and not-found otherwise, whatever the cache held
    before. *)
Theorem ResetMappings_GetMapping f m entries id :
  enumerates entries m →
  GetMapping (ResetMappings f entries) id = m !! id.
Proof.
  intros Hm. unfold ResetMappings.
  destruct (m !! id) as [cp|] eqn:E.
  - apply GetMapping_foldl_in; [by eapply enumerates_NoDup|].
    by apply (enumerates_elem_of entries m).
  - rewrite GetMapping_foldl_notin; [apply branch_lookup_empty|].
    intros ([id' cp] & -> & Hin)%list_elem_of_fmap.
    apply (enumerates_elem_of entries m) in Hin; [|done].
    simpl in E. congruence.
Qed.

Lemma ResetMappings_GetMapping_witness :
  enumerates [(car2, cpB)] {[car2 := cpB]}
  ∧ GetMapping (ResetMappings finderA [(car2, cpB)]) car1
    = ({[car2 := cpB]} : gmap UnversionedObjectID ChecksumPath) !! car1.
Proof.
  split.
  - unfold enumerates. by rewrite map_to_list_singleton.
  - apply (ResetMappings_GetMapping finderA {[car2 := cpB]}).
    unfold enumerates. by rewrite map_to_list_singleton.
Defined.

(** C8: [ObjectPath] returns the mapped path of an identity that has a
    mapping.  For an identity without one it fails with an error that
    matches [ErrNotTracked], which the plain not-found error of the
    identity does not match. *)
Theorem ObjectPath_tracked_or_ErrNotTracked f id :
  match GetMapping f id with
  | Some cp => ObjectPath f id = inr (Path cp)
  | None =>
      ∃ err, ObjectPath f id = inl err
             ∧ errors_Is err ErrNotTracked = true
             ∧ errors_Is (Plain (ErrNotFound id)) ErrNotTracked = false
  end.
Proof.
  unfold ObjectPath. destruct (GetMapping f id) as [cp|]; [done|].
  eexists. split; [done|]. split; reflexivity.
Qed.

(** The error of [ObjectPath] is an aggregate: it also matches the
    not-found error of the identity. *)
Lemma ObjectPath_untracked_aggregate f id :
  GetMapping f id = None →
  ObjectPath f id = inl (Aggregate [ErrNotTracked; ErrNotFound id])
  ∧ errors_Is (Aggregate [ErrNotTracked; ErrNotFound id]) (ErrNotFound id)
    = true.
Proof.
  intros E. unfold ObjectPath. rewrite E. split; [done|].
  simpl. by rewrite bool_decide_eq_true_2.
Qed.

(** C9: [DeleteMapping] does not always remove the identity from the path
    view.  After [car1] was moved from [a.yaml] to [b.yaml] by two
    [SetMapping] calls, [DeleteMapping] leaves no mapping for [car1] and
    no entry for [b.yaml], but [car1] stays listed under [a.yaml]. *)
Theorem DeleteMapping_leaves_old_path :
  GetMapping (DeleteMapping finderAB car1) car1 = None
  ∧ ObjectsAt (DeleteMapping finderAB car1) "b.yaml"
    = inl (Plain ErrNotTracked)
  ∧ ObjectsAt (DeleteMapping finderAB car1) "a.yaml" = inr {[car1]}.
Proof.
  split; [apply GetMapping_DeleteMapping_eq|].
  unfold ObjectsAt. split.
  - change "b.yaml" with (Path cpB).
    rewrite (pathToIDs_DeleteMapping_eq _ _ _ GetMapping_finderAB).
    change (Path cpB) with "b.yaml". rewrite pathToIDs_finderAB_b.
    by rewrite decide_True by apply difference_diag_L.
  - rewrite (pathToIDs_DeleteMapping_ne _ _ cpB _ GetMapping_finderAB)
      by discriminate.
    by rewrite pathToIDs_finderAB_a.
Qed.

(** C10: in every state built from the empty cache by [SetMapping],
    [DeleteMapping] and [ResetMappings] calls, a path present in
    [pathToIDs] holds a non-empty identity set, so [ObjectsAt] either
    fails with [ErrNotTracked] or returns a non-empty set. *)
Theorem reachable_ObjectsAt_nonempty f path :
  reachable f →
  match pathToIDs f !! path with
  | Some ids => ids ≠ ∅
  | None => True
  end
  ∧ (ObjectsAt f path = inl (Plain ErrNotTracked)
     ∨ ∃ ids, ObjectsAt f path = inr ids ∧ ids ≠ ∅).
Proof.
  intros Hf. pose proof (reachable_no_empty_set f Hf path) as Hne.
  unfold ObjectsAt.
  destruct (pathToIDs f !! path) as [ids|]; [|by split; [|left]].
  split; [by apply Hne|]. right. exists ids. split; [done|by apply Hne].
Qed.

Lemma reachable_ObjectsAt_nonempty_witness :
  reachable (DeleteMapping finderAB car1)
  ∧ (match pathToIDs (DeleteMapping finderAB car1) !! "a.yaml" with
     | Some ids => ids ≠ ∅
     | None => True
     end
     ∧ (ObjectsAt (DeleteMapping finderAB car1) "a.yaml"
        = inl (Plain ErrNotTracked)
        ∨ ∃ ids, ObjectsAt (DeleteMapping finderAB car1) "a.yaml" = inr ids
                 ∧ ids ≠ ∅)).
Proof.
  split.
  - apply reach_delete, reach_set, reach_set, reach_new.
  - apply (reachable_ObjectsAt_nonempty (DeleteMapping finderAB car1)).
    apply reach_delete, reach_set, reach_set, reach_new.
Defined.

(** ** Further properties of the mapping cache *)

Lemma no_stale_new : no_stale NewGenericFileFinder.
Proof. intros p ids id. by rewrite pathToIDs_new. Qed.


Lemma no_stale_SetMapping f id0 cp0 :
  (∀ cp, GetMapping f id0 = Some cp → Path cp = Path cp0) →
  no_stale f → no_stale (SetMapping f id0 cp0).
Proof.
  intros Hsame Hf p ids id Hp Hin.
  destruct (decide (id = id0)) as [->|Hid].
  - exists cp0. split; [apply GetMapping_SetMapping_eq|].
    destruct (decide (p = Path cp0)) as [->|Hne]; [done|].
    rewrite pathToIDs_SetMapping_ne in Hp by done.
    destruct (Hf _ _ _ Hp Hin) as (cp & Hcp & <-).
    symmetry. by apply Hsame.
  - rewrite GetMapping_SetMapping_ne by done.
    destruct (decide (p = Path cp0)) as [->|Hne].
    + rewrite pathToIDs_SetMapping_eq in Hp. injection Hp as Hp. subst ids.
      apply elem_of_union in Hin as [Hin|Hin];
        [by apply elem_of_singleton in Hin|].
      destruct (pathToIDs f !! Path cp0) as [ids0|] eqn:E;
        [|by apply not_elem_of_empty in Hin].
      by apply (Hf _ _ _ E).
    + rewrite pathToIDs_SetMapping_ne in Hp by done. by apply (Hf _ _ _ Hp).
Qed.

(** X1: on every state built from the empty cache, the path that
    [ObjectPath] returns for an identity is a tracked path, and
    [ObjectsAt] for it returns a set that holds the identity. *)
Theorem reachable_ObjectPath_ObjectsAt f id p :
  reachable f → ObjectPath f id = inr p →
  ∃ ids, ObjectsAt f p = inr ids ∧ id ∈ ids.
Proof.
  intros Hf. unfold ObjectPath, ObjectsAt.
  destruct (GetMapping f id) as [cp|] eqn:E; [|done].
  intros [= <-].
  destruct (reachable_registered f Hf id cp E) as (ids & -> & Hin). eauto.
Qed.

Lemma reachable_ObjectPath_ObjectsAt_witness :
  reachable finderAB ∧ ObjectPath finderAB car1 = inr "b.yaml"
  ∧ ∃ ids, ObjectsAt finderAB "b.yaml" = inr ids ∧ car1 ∈ ids.
Proof.
  assert (Hp : ObjectPath finderAB car1 = inr "b.yaml").
  { unfold ObjectPath. by rewrite GetMapping_finderAB. }
  assert (Hr : reachable finderAB) by apply reach_set, reach_set, reach_new.
  split; [exact Hr|]. split; [exact Hp|].
  exact (reachable_ObjectPath_ObjectsAt finderAB car1 "b.yaml" Hr Hp).
Defined.

(** X2: [SetMapping] never shrinks the path view: every path tracked
    before the call is tracked after it, with an identity set that
    contains the previous one. *)
Theorem SetMapping_pathToIDs_grows f id cp p :
  match pathToIDs f !! p with
  | Some ids =>
      ∃ ids', pathToIDs (SetMapping f id cp) !! p = Some ids' ∧ ids ⊆ ids'
  | None => True
  end.
Proof.
  destruct (pathToIDs f !! p) as [ids|] eqn:E; [|done].
  destruct (decide (p = Path cp)) as [->|Hne].
  - rewrite pathToIDs_SetMapping_eq, E. eexists; split; [done|].
    apply union_subseteq_r.
  - rewrite pathToIDs_SetMapping_ne, E by done. by eexists.
Qed.

(** X3: [SetMapping] of one identity changes the answer of [GetMapping]
    and of [ObjectPath] for no other identity. *)
Theorem SetMapping_other_identity f id id' cp :
  id ≠ id' →
  GetMapping (SetMapping f id cp) id' = GetMapping f id'
  ∧ ObjectPath (SetMapping f id cp) id' = ObjectPath f id'.
Proof.
  intros Hne. unfold ObjectPath.
  by rewrite GetMapping_SetMapping_ne.
Qed.

Lemma SetMapping_other_identity_witness :
  car1 ≠ car2
  ∧ GetMapping (SetMapping finderA car1 cpB) car2 = GetMapping finderA car2
  ∧ ObjectPath (SetMapping finderA car1 cpB) car2 = ObjectPath finderA car2.
Proof.
  split; [discriminate|].
  apply (SetMapping_other_identity finderA car1 car2 cpB). discriminate.
Defined.

(** X4: [DeleteMapping] of a mapped identity touches one path only: the
    identity set of the path the identity was mapped to loses the identity
    (the path becomes untracked when nothing is left), every other path
    keeps its set, and every other identity keeps its mapping. *)
Theorem DeleteMapping_frame f id cp :
  GetMapping f id = Some cp →
  (∀ id', id ≠ id' → GetMapping (DeleteMapping f id) id' = GetMapping f id')
  ∧ (∀ p, p ≠ Path cp →
       ObjectsAt (DeleteMapping f id) p = ObjectsAt f p)
  ∧ (∀ ids, ObjectsAt f (Path cp) = inr ids →
       ObjectsAt (DeleteMapping f id) (Path cp)
       = if decide (ids ∖ {[id]} = ∅) then inl (Plain ErrNotTracked)
         else inr (ids ∖ {[id]})).
Proof.
  intros E. split; [|split].
  - intros id' Hne. by apply GetMapping_DeleteMapping_ne.
  - intros p Hne. unfold ObjectsAt.
    by rewrite (pathToIDs_DeleteMapping_ne _ _ _ _ E).
  - intros ids. unfold ObjectsAt.
    rewrite (pathToIDs_DeleteMapping_eq _ _ _ E).
    destruct (pathToIDs f !! Path cp) as [ids0|]; [|done].
    intros [= ->]. by case_decide.
Qed.

Lemma DeleteMapping_frame_witness :
  GetMapping finderAB car1 = Some cpB
  ∧ (∀ id', car1 ≠ id' →
       GetMapping (DeleteMapping finderAB car1) id' = GetMapping finderAB id')
  ∧ (∀ p, p ≠ Path cpB →
       ObjectsAt (DeleteMapping finderAB car1) p = ObjectsAt finderAB p)
  ∧ (∀ ids, ObjectsAt finderAB (Path cpB) = inr ids →
       ObjectsAt (DeleteMapping finderAB car1) (Path cpB)
       = if decide (ids ∖ {[car1]} = ∅) then inl (Plain ErrNotTracked)
         else inr (ids ∖ {[car1]})).
Proof.
  split; [apply GetMapping_finderAB|].
  apply (DeleteMapping_frame finderAB car1 cpB), GetMapping_finderAB.
Defined.

(** X5: [DeleteMapping] is idempotent: a second call for the same
    identity returns the state of the first. *)
Theorem DeleteMapping_idempotent f id :
  DeleteMapping (DeleteMapping f id) id = DeleteMapping f id.
Proof. apply DeleteMapping_untracked, GetMapping_DeleteMapping_eq. Qed.

(** X6: [SetMapping] followed by [DeleteMapping] of the same identity is
    a round trip on both views, for an identity that had no mapping and
    that the set of the path (non-empty if present) did not list. *)
Theorem SetMapping_DeleteMapping_roundtrip f id cp :
  GetMapping f id = None →
  (∀ ids, pathToIDs f !! Path cp = Some ids → (id ∉ ids) ∧ ids ≠ ∅) →
  (∀ id', GetMapping (DeleteMapping (SetMapping f id cp) id) id'
          = GetMapping f id')
  ∧ pathToIDs (DeleteMapping (SetMapping f id cp) id) = pathToIDs f.
Proof.
  intros Hnone Hpath.
  pose proof (GetMapping_SetMapping_eq f id cp) as Hset. split.
  - intros id'. destruct (decide (id = id')) as [<-|Hne].
    + by rewrite GetMapping_DeleteMapping_eq.
    + rewrite GetMapping_DeleteMapping_ne by done.
      by apply GetMapping_SetMapping_ne.
  - apply map_eq. intros p. destruct (decide (p = Path cp)) as [->|Hne].
    + rewrite (pathToIDs_DeleteMapping_eq _ _ _ Hset).
      rewrite pathToIDs_SetMapping_eq.
      destruct (pathToIDs f !! Path cp) as [ids|] eqn:E.
      * destruct (Hpath ids eq_refl) as [Hin Hemp].
        change (default ∅ (Some ids)) with ids.
        assert (Heq : ({[id]} ∪ ids) ∖ {[id]} = ids).
        { rewrite difference_union_distr_l_L, difference_diag_L.
          rewrite (left_id_L ∅ (∪)).
          by apply difference_disjoint_L, disjoint_singleton_r. }
        rewrite Heq. by rewrite decide_False.
      * change (default ∅ None) with (∅ : UnversionedObjectIDSet).
        rewrite (right_id_L ∅ (∪)).
        by rewrite decide_True by apply difference_diag_L.
    + rewrite (pathToIDs_DeleteMapping_ne _ _ _ _ Hset) by done.
      by apply pathToIDs_SetMapping_ne.
Qed.

Lemma SetMapping_DeleteMapping_roundtrip_witness :
  GetMapping finderA car2 = None
  ∧ (∀ ids, pathToIDs finderA !! Path cpA = Some ids →
            (car2 ∉ ids) ∧ ids ≠ ∅)
  ∧ (∀ id', GetMapping (DeleteMapping (SetMapping finderA car2 cpA) car2) id'
            = GetMapping finderA id')
  ∧ pathToIDs (DeleteMapping (SetMapping finderA car2 cpA) car2)
    = pathToIDs finderA.
Proof.
  assert (H1 : GetMapping finderA car2 = None).
  { unfold finderA. rewrite GetMapping_SetMapping_ne by discriminate.
    apply GetMapping_new. }
  assert (H2 : ∀ ids, pathToIDs finderA !! Path cpA = Some ids →
                      (car2 ∉ ids) ∧ ids ≠ ∅).
  { intros ids. change (Path cpA) with "a.yaml".
    rewrite pathToIDs_finderA_a. intros [= <-]. split.
    - intros Hin%elem_of_singleton. discriminate.
    - intros Hemp. apply (not_elem_of_empty (C:=UnversionedObjectIDSet) car1).
      rewrite <- Hemp. by apply elem_of_singleton. }
  split; [exact H1|]. split; [exact H2|].
  exact (SetMapping_DeleteMapping_roundtrip finderA car2 cpA H1 H2).
Defined.

Lemma elem_of_ListObjectIDs f gk ns :
  ∃ ids, ListObjectIDs f gk ns = inr ids
    ∧ ∀ id, id ∈ ids ↔
        IDGroupKind id = gk ∧ Namespace (IDObjectKey id) = ns
        ∧ is_Some (GetMapping f id).
Proof.
  eexists. split; [reflexivity|]. intros id.
  rewrite elem_of_list_to_set, list_elem_of_fmap.
  unfold GetMapping, getMapping, Branch.lookup, Branch.name, Branch.raw.
  split.
  - intros (nm & -> & Hnm). simpl. split; [done|]. split; [done|].
    apply list_elem_of_fmap in Hnm as ([nm' cp] & -> & Hin).
    apply elem_of_map_to_list in Hin. simpl. by eexists.
  - destruct id as [gk' [nm ns']]; simpl. intros (-> & -> & [cp Hcp]).
    exists nm. split; [done|].
    apply list_elem_of_fmap. exists (nm, cp). split; [done|].
    by apply elem_of_map_to_list.
Qed.

(** X7: [ListObjectIDs] returns exactly the identities of the given
    group/kind and namespace that [GetMapping] finds. *)
Theorem ListObjectIDs_elem_of f gk ns :
  ∃ ids, ListObjectIDs f gk ns = inr ids
    ∧ ∀ id, id ∈ ids ↔
        IDGroupKind id = gk ∧ Namespace (IDObjectKey id) = ns
        ∧ is_Some (GetMapping f id).
Proof. apply elem_of_ListObjectIDs. Qed.

(** X8: the namespace of every identity that has a mapping is among the
    namespaces [ListNamespaces] returns for its group/kind. *)
Theorem ListNamespaces_tracked f id cp :
  GetMapping f id = Some cp →
  ∃ nss, ListNamespaces f (IDGroupKind id) = inr nss
         ∧ Namespace (IDObjectKey id) ∈ nss.
Proof.
  unfold GetMapping, getMapping, Branch.lookup, Branch.name,
    Branch.namespace, ListNamespaces.
  intros Hget. eexists. split; [reflexivity|].
  destruct (Branch.groupKind (branch f) (IDGroupKind id)
              !! Namespace (IDObjectKey id)) as [n|] eqn:E;
    [|cbn [default from_option] in Hget; by rewrite lookup_empty in Hget].
  rewrite elem_of_list_to_set. apply list_elem_of_fmap.
  exists (Namespace (IDObjectKey id), n). split; [done|].
  by apply elem_of_map_to_list.
Qed.

Lemma ListNamespaces_tracked_witness :
  GetMapping finderA car1 = Some cpA
  ∧ ∃ nss, ListNamespaces finderA (IDGroupKind car1) = inr nss
           ∧ Namespace (IDObjectKey car1) ∈ nss.
Proof.
  split; [apply GetMapping_finderA|].
  apply (ListNamespaces_tracked finderA car1 cpA), GetMapping_finderA.
Defined.

(** X9: [SetMapping] keeps the two views mutually consistent when the
    identity has no mapping yet or stays in the same file. *)
Theorem SetMapping_consistent f id cp :
  consistent f →
  (∀ cp0, GetMapping f id = Some cp0 → Path cp0 = Path cp) →
  consistent (SetMapping f id cp).
Proof.
  intros [Hreg Hstale] Hsame. split.
  - by apply registered_SetMapping.
  - by apply no_stale_SetMapping.
Qed.

Lemma SetMapping_consistent_witness :
  consistent NewGenericFileFinder
  ∧ (∀ cp0, GetMapping NewGenericFileFinder car1 = Some cp0 →
            Path cp0 = Path cpA)
  ∧ consistent finderA.
Proof.
  assert (H1 : consistent NewGenericFileFinder)
    by (split; [apply registered_new|apply no_stale_new]).
  assert (H2 : ∀ cp0, GetMapping NewGenericFileFinder car1 = Some cp0 →
                      Path cp0 = Path cpA).
  { intros cp0. by rewrite GetMapping_new. }
  split; [exact H1|]. split; [exact H2|].
  exact (SetMapping_consistent NewGenericFileFinder car1 cpA H1 H2).
Defined.



Lemma entriesAt_cons id cp entries p :
  entriesAt ((id, cp) :: entries) p
  = if decide (Path cp = p) then {[id]} ∪ entriesAt entries p
    else entriesAt entries p.
Proof.
  unfold entriesAt. rewrite filter_cons. simpl.
  by destruct (decide (Path cp = p)).
Qed.

Lemma pathToIDs_foldl_SetMapping entries f p :
  pathToIDs (foldl (λ f' e, SetMapping f' e.1 e.2) f entries) !! p
  = if decide (entriesAt entries p = ∅) then pathToIDs f !! p
    else Some (entriesAt entries p ∪ default ∅ (pathToIDs f !! p)).
Proof.
  revert f. induction entries as [|[id cp] entries IH]; intros f.
  - simpl. by rewrite decide_True.
  - cbn [foldl fst snd]. rewrite IH, entriesAt_cons.
    destruct (decide (Path cp = p)) as [<-|Hne].
    + rewrite pathToIDs_SetMapping_eq.
      rewrite (decide_False (P:=(_ ∪ _ = ∅)))
        by (intros Hemp; apply (not_elem_of_empty (C:=UnversionedObjectIDSet) id);
            rewrite <- Hemp; apply elem_of_union_l; by apply elem_of_singleton).
      change (default ∅ (Some ?x)) with x.
      destruct (decide (entriesAt entries (Path cp) = ∅)) as [->|_].
      * by rewrite (right_id_L ∅ (∪)).
      * f_equal. rewrite !(assoc_L (∪)). f_equal. apply (comm_L (∪)).
    + by rewrite pathToIDs_SetMapping_ne.
Qed.

(** X11: the path view after [ResetMappings]: a path that no entry of the
    given map names keeps the identity set it had, and a path that some
    entry names holds the identities the entries place there together with
    those it held before. *)
Theorem ResetMappings_pathToIDs f entries p :
  pathToIDs (ResetMappings f entries) !! p
  = if decide (entriesAt entries p = ∅) then pathToIDs f !! p
    else Some (entriesAt entries p ∪ default ∅ (pathToIDs f !! p)).
Proof. unfold ResetMappings. by rewrite pathToIDs_foldl_SetMapping. Qed.

Lemma GetMapping_ResetMappings_enumerates f m entries id :
  enumerates entries m → GetMapping (ResetMappings f entries) id = m !! id.
Proof.
  intros Hm. unfold ResetMappings.
  destruct (m !! id) as [cp|] eqn:E.
  - apply GetMapping_foldl_in; [by eapply enumerates_NoDup|].
    by apply (enumerates_elem_of entries m).
  - rewrite GetMapping_foldl_notin; [apply branch_lookup_empty|].
    intros ([id' cp] & -> & Hin)%list_elem_of_fmap.
    apply (enumerates_elem_of entries m) in Hin; [|done].
    simpl in E. congruence.
Qed.

(** X12: after [ResetMappings] with the map [m], [ListObjectIDs] returns
    exactly the identities of [m] of the given group/kind and namespace,
    whatever the cache held before. *)
Theorem ResetMappings_ListObjectIDs f m entries gk ns :
  enumerates entries m →
  ∃ ids, ListObjectIDs (ResetMappings f entries) gk ns = inr ids
    ∧ ∀ id, id ∈ ids ↔
        IDGroupKind id = gk ∧ Namespace (IDObjectKey id) = ns
        ∧ is_Some (m !! id).
Proof.
  intros Hm.
  destruct (elem_of_ListObjectIDs (ResetMappings f entries) gk ns)
    as (ids & Hids & Hin).
  exists ids. split; [done|]. intros id.
  by rewrite Hin, (GetMapping_ResetMappings_enumerates f m).
Qed.

Lemma ResetMappings_ListObjectIDs_witness :
  enumerates [(car2, cpB)] {[car2 := cpB]}
  ∧ ∃ ids, ListObjectIDs (ResetMappings finderA [(car2, cpB)]) carKind ""
           = inr ids
    ∧ ∀ id, id ∈ ids ↔
        IDGroupKind id = carKind ∧ Namespace (IDObjectKey id) = ""
        ∧ is_Some (({[car2 := cpB]}
                     : gmap UnversionedObjectID ChecksumPath) !! id).
Proof.
  assert (H : enumerates [(car2, cpB)] {[car2 := cpB]}).
  { unfold enumerates. by rewrite map_to_list_singleton. }
  split; [exact H|].
  exact (ResetMappings_ListObjectIDs finderA {[car2 := cpB]}
           [(car2, cpB)] carKind "" H).
Defined.

(** X13: [eventsEqual] of the test decides equality of two sequences of
    event types. *)
Theorem eventsEqual_true_iff (a b : list Inotify.FileEventType) :
  Inotify.eventsEqual a b = true ↔ a = b.
Proof.
  revert b. induction a as [|x a IH]; intros [|y b]; simpl; try done.
  rewrite andb_true_iff, bool_decide_eq_true, IH.
  split; [by intros [-> ->]|by intros [= -> ->]].
Qed.

(** ** Properties of the object conversion *)

Module ConvertorProofs.
Import Convertor.

Section convertor.
Context {Object E Ctx : Type}.
Variable isConvertible : Object → bool.
Variable isHub : Object → bool.
Variable ConvertTo : Object → Object → Object * option E.
Variable ConvertFrom : Object → Object → Object * option E.
Variable schemeConvert : Object → Object → option Ctx → Object * option E.
Variable schemeNew : GroupVersionKind → E + Object.
Variable AllKnownTypes : list GroupVersionKind.
Variable gvkForObject : Object → convError E + GroupVersionKind.
Variable IsConvertible : Object → E + bool.
Variable SetGroupVersionKind : Object → GroupVersionKind → Object.
Variable GroupKindString : GroupKind → string.

Local Abbreviation hubCandidate := (hubCandidate isHub schemeNew GroupKindString).
Local Abbreviation findHubTypeIn :=
  (findHubTypeIn isHub schemeNew GroupKindString).
Local Abbreviation findHubType :=
  (findHubType isHub schemeNew AllKnownTypes GroupKindString).
Local Abbreviation validateConvertible :=
  (validateConvertible gvkForObject IsConvertible).
Local Abbreviation convertToHub :=
  (convertToHub isHub ConvertTo schemeNew AllKnownTypes gvkForObject
     IsConvertible SetGroupVersionKind GroupKindString).
Local Abbreviation Convert :=
  (Convert isConvertible isHub ConvertTo ConvertFrom schemeConvert
     gvkForObject IsConvertible SetGroupVersionKind).

Lemma hubCandidate_Some currentGVK gvk hub :
  hubCandidate currentGVK gvk = Some hub ↔
    GroupKindString (GVKGroupKind gvk)
    = GroupKindString (GVKGroupKind currentGVK)
    ∧ Version gvk ≠ Version currentGVK
    ∧ schemeNew gvk = inr hub ∧ isHub hub = true.
Proof.
  unfold Convertor.hubCandidate.
  destruct (String.eqb_spec (GroupKindString (GVKGroupKind gvk))
              (GroupKindString (GVKGroupKind currentGVK))) as [Hs|Hs];
    simpl; [|by split; [|intros [? _]]].
  destruct (String.eqb_spec (Version gvk) (Version currentGVK)) as [Hv|Hv];
    [by split; [|intros (_ & ? & _)]|].
  destruct (schemeNew gvk) as [e|obj]; [by split; [|intros (_ & _ & ? & _)]|].
  destruct (isHub obj) eqn:Hhub.
  - split; [by intros [= <-]|by intros (_ & _ & [= <-] & _)].
  - split; [done|]. intros (_ & _ & [= <-] & ?). congruence.
Qed.

Lemma findHubTypeIn_inr known currentGVK hub hubGVK :
  findHubTypeIn known currentGVK = inr (hub, hubGVK) →
  hubGVK ∈ known ∧ hubCandidate currentGVK hubGVK = Some hub.
Proof.
  induction known as [|gvk known IH]; simpl; [done|].
  destruct (hubCandidate currentGVK gvk) as [obj|] eqn:Hc.
  - intros [= <- <-]. split; [apply list_elem_of_here|done].
  - intros [Hin Hcand]%IH. split; [by apply list_elem_of_further|done].
Qed.

Lemma findHubTypeIn_inl known currentGVK err :
  findHubTypeIn known currentGVK = inl err ↔
    err = Errorf "no matching Hub target type for convertible of gvk %s"
                 (Some currentGVK)
    ∧ ∀ gvk, gvk ∈ known → hubCandidate currentGVK gvk = None.
Proof.
  induction known as [|gvk known IH]; simpl.
  - split.
    + intros [= <-]. split; [done|]. by intros gvk ?%elem_of_nil.
    + by intros [-> _].
  - destruct (hubCandidate currentGVK gvk) as [obj|] eqn:Hc.
    + split; [done|]. intros [_ Hall].
      specialize (Hall gvk (list_elem_of_here _ _)). congruence.
    + rewrite IH. split; intros [-> Hall]; (split; [done|]).
      * intros gvk' [->|Hin]%elem_of_cons; [done|by apply Hall].
      * intros gvk' Hin. by apply Hall, list_elem_of_further.
Qed.

(** X14: a hub that [findHubType] returns is a known type of the scheme
    whose group/kind prints like the one of the current gvk, whose version
    differs from the current one, and for which the scheme creates an
    object that is a [Hub]. *)
Theorem findHubType_sound currentGVK hub hubGVK :
  findHubType currentGVK = inr (hub, hubGVK) →
  hubGVK ∈ AllKnownTypes
  ∧ GroupKindString (GVKGroupKind hubGVK)
    = GroupKindString (GVKGroupKind currentGVK)
  ∧ Version hubGVK ≠ Version currentGVK
  ∧ schemeNew hubGVK = inr hub ∧ isHub hub = true.
Proof.
  intros [Hin Hcand]%findHubTypeIn_inr.
  split; [done|]. by apply hubCandidate_Some.
Qed.

(** X15: [findHubType] fails exactly when no known type of the scheme
    qualifies, and its error is then the "no matching Hub target type"
    error for the current gvk. *)
Theorem findHubType_error_iff currentGVK err :
  findHubType currentGVK = inl err ↔
    err = Errorf "no matching Hub target type for convertible of gvk %s"
                 (Some currentGVK)
    ∧ ∀ gvk hub, gvk ∈ AllKnownTypes →
        GroupKindString (GVKGroupKind gvk)
        = GroupKindString (GVKGroupKind currentGVK) →
        Version gvk ≠ Version currentGVK →
        schemeNew gvk = inr hub → isHub hub = false.
Proof.
  unfold Convertor.findHubType. rewrite findHubTypeIn_inl.
  split; intros [-> Hall]; (split; [done|]).
  - intros gvk hub Hin Hs Hv Hnew.
    destruct (isHub hub) eqn:Hhub; [|done].
    assert (hubCandidate currentGVK gvk = Some hub) as Hc
      by (by apply hubCandidate_Some).
    rewrite (Hall gvk Hin) in Hc. done.
  - intros gvk Hin.
    destruct (hubCandidate currentGVK gvk) as [hub|] eqn:Hc; [|done].
    apply hubCandidate_Some in Hc as (Hs & Hv & Hnew & Hhub).
    rewrite (Hall gvk hub Hin Hs Hv Hnew) in Hhub. done.
Qed.

(** X16: [Convert] rejects a mismatched pair without touching [out]: when
    [in] is a [Convertible] and [out] is no [Hub], or when only [out] is a
    [Convertible] and [in] is no [Hub], it returns a conversion error of
    cause invalid-args, with no gvk, and [out] is unchanged. *)
Theorem Convert_invalid_args c in_ out context :
  (isConvertible in_ = true ∧ isHub out = false)
  ∨ (isConvertible in_ = false ∧ isConvertible out = true
     ∧ isHub in_ = false) →
  ∃ msg, Convert c in_ out context
         = (out, Some (NewCRDConversionError None
                         CRDConversionErrorCauseInvalidArgs
                         (Some (Errorf msg None)))).
Proof.
  unfold Convertor.Convert.
  intros [[-> ->]|(-> & -> & ->)]; by eexists.
Qed.

(** X17: when [convertToHub] returns an object, the object passed
    [validateConvertible], the scheme created a hub of a known type with
    the same group/kind string and another version, [ConvertTo] into that
    hub reported no error, and the result is that hub with the gvk of the
    hub type set. *)
Theorem convertToHub_success in_ result :
  convertToHub in_ = inr result →
  ∃ currentGVK hubGVK hub hub',
    gvkForObject in_ = inr currentGVK
    ∧ IsConvertible in_ = inr true
    ∧ hubGVK ∈ AllKnownTypes
    ∧ GroupKindString (GVKGroupKind hubGVK)
      = GroupKindString (GVKGroupKind currentGVK)
    ∧ Version hubGVK ≠ Version currentGVK
    ∧ schemeNew hubGVK = inr hub ∧ isHub hub = true
    ∧ ConvertTo in_ hub = (hub', None)
    ∧ result = SetGroupVersionKind hub' hubGVK.
Proof.
  unfold Convertor.convertToHub, Convertor.validateConvertible.
  destruct (gvkForObject in_) as [e|currentGVK]; [done|].
  destruct (IsConvertible in_) as [e|[|]]; [done| |done].
  destruct (findHubType currentGVK) as [e|[hub hubGVK]] eqn:Hfind; [done|].
  destruct (ConvertTo in_ hub) as [hub' [e|]] eqn:Hto; [done|].
  intros [= <-].
  apply findHubTypeIn_inr in Hfind as [Hin Hcand].
  apply hubCandidate_Some in Hcand as (Hs & Hv & Hnew & Hhub).
  exists currentGVK, hubGVK, hub, hub'. done.
Qed.

(** X18: every error of [validateConvertible] that comes after the gvk of
    the object was found is a conversion error of cause scheme-setup that
    carries that gvk; there is no error exactly when the gvk is found and
    [IsConvertible] answers yes. *)
Theorem validateConvertible_error obj gvk :
  gvkForObject obj = inr gvk →
  (validateConvertible obj).1 = gvk
  ∧ ((validateConvertible obj).2 = None ↔ IsConvertible obj = inr true)
  ∧ ∀ err, (validateConvertible obj).2 = Some err →
      ∃ inner, err = NewCRDConversionError (Some gvk)
                       CRDConversionErrorCauseSchemeSetup inner.
Proof.
  unfold Convertor.validateConvertible. intros ->.
  destruct (IsConvertible obj) as [e|[|]]; simpl;
    (split; [done|]); (split; [by split|]);
    intros err [= <-] || intros err [=]; by eexists.
Qed.

(** X19: when [in] is a [Convertible] and [Convert] reports no error,
    [out] is a [Hub], [in] passed [validateConvertible], [in.ConvertTo(out)]
    reported no error, and the out object is the converted one with the
    gvk set that [gvkForObject] finds for it. *)
Theorem Convert_into_hub_success c in_ out context out' :
  isConvertible in_ = true →
  Convert c in_ out context = (out', None) →
  isHub out = true
  ∧ ∃ inGVK converted outGVK,
      gvkForObject in_ = inr inGVK
      ∧ IsConvertible in_ = inr true
      ∧ ConvertTo in_ out = (converted, None)
      ∧ gvkForObject converted = inr outGVK
      ∧ out' = SetGroupVersionKind converted outGVK.
Proof.
  unfold Convertor.Convert, Convertor.convertIntoHub,
    Convertor.validateConvertible, Convertor.populateGVK.
  intros ->. destruct (isHub out); [|done].
  destruct (gvkForObject in_) as [e|inGVK]; [done|].
  destruct (IsConvertible in_) as [e|[|]]; [done| |done].
  destruct (ConvertTo in_ out) as [converted [e|]]; [done|].
  destruct (gvkForObject converted) as [e|outGVK] eqn:Hgvk; [done|].
  intros [= <-]. split; [done|].
  by exists inGVK, converted, outGVK.
Qed.

End convertor.

Section sample.
Import ConvertorSample.

Lemma findHubType_sound_witness :
  findHubType isHub schemeNew AllKnownTypes GroupKindString carV1alpha1
  = inr (mkSample carV1 "", carV1)
  ∧ (carV1 ∈ AllKnownTypes
     ∧ GroupKindString (GVKGroupKind carV1)
       = GroupKindString (GVKGroupKind carV1alpha1)
     ∧ Version carV1 ≠ Version carV1alpha1
     ∧ schemeNew carV1 = inr (mkSample carV1 "")
     ∧ isHub (mkSample carV1 "") = true).
Proof.
  split; [reflexivity|].
  apply (findHubType_sound isHub schemeNew AllKnownTypes GroupKindString
           carV1alpha1 (mkSample carV1 "") carV1).
  reflexivity.
Defined.

Lemma Convert_invalid_args_witness :
  ((isConvertible oldCar = true ∧ isHub oldCar = false)
   ∨ (isConvertible oldCar = false ∧ isConvertible oldCar = true
      ∧ isHub oldCar = false))
  ∧ ∃ msg,
      Convert isConvertible isHub ConvertTo ConvertFrom schemeConvert
        gvkForObject IsConvertible SetGroupVersionKind
        (newObjectConvertor true) oldCar oldCar None
      = (oldCar, Some (NewCRDConversionError None
                         CRDConversionErrorCauseInvalidArgs
                         (Some (Errorf msg None)))).
Proof.
  assert (H : (isConvertible oldCar = true ∧ isHub oldCar = false)
              ∨ (isConvertible oldCar = false ∧ isConvertible oldCar = true
                 ∧ isHub oldCar = false))
    by (left; split; reflexivity).
  split; [exact H|].
  exact (Convert_invalid_args isConvertible isHub ConvertTo ConvertFrom
           schemeConvert gvkForObject IsConvertible SetGroupVersionKind
           (newObjectConvertor true) oldCar oldCar None H).
Defined.

Lemma convertToHub_success_witness :
  convertToHub isHub ConvertTo schemeNew AllKnownTypes gvkForObject
    IsConvertible SetGroupVersionKind GroupKindString oldCar
  = inr (mkSample carV1 "brand: volvo")
  ∧ ∃ currentGVK hubGVK hub hub',
      gvkForObject oldCar = inr currentGVK
      ∧ IsConvertible oldCar = inr true
      ∧ hubGVK ∈ AllKnownTypes
      ∧ GroupKindString (GVKGroupKind hubGVK)
        = GroupKindString (GVKGroupKind currentGVK)
      ∧ Version hubGVK ≠ Version currentGVK
      ∧ schemeNew hubGVK = inr hub ∧ isHub hub = true
      ∧ ConvertTo oldCar hub = (hub', None)
      ∧ mkSample carV1 "brand: volvo" = SetGroupVersionKind hub' hubGVK.
Proof.
  split; [reflexivity|].
  apply (convertToHub_success isHub ConvertTo schemeNew AllKnownTypes
           gvkForObject IsConvertible SetGroupVersionKind GroupKindString
           oldCar (mkSample carV1 "brand: volvo")).
  reflexivity.
Defined.

Lemma validateConvertible_error_witness :
  gvkForObject oldCar = inr carV1alpha1
  ∧ ((validateConvertible gvkForObject IsConvertible oldCar).1 = carV1alpha1
     ∧ ((validateConvertible gvkForObject IsConvertible oldCar).2 = None
        ↔ IsConvertible oldCar = inr true)
     ∧ ∀ err,
         (validateConvertible gvkForObject IsConvertible oldCar).2 = Some err →
         ∃ inner, err = NewCRDConversionError (Some carV1alpha1)
                          CRDConversionErrorCauseSchemeSetup inner).
Proof.
  split; [reflexivity|].
  apply (validateConvertible_error gvkForObject IsConvertible oldCar
           carV1alpha1).
  reflexivity.
Defined.

Lemma Convert_into_hub_success_witness :
  isConvertible oldCar = true
  ∧ Convert isConvertible isHub ConvertTo ConvertFrom schemeConvert
      gvkForObject IsConvertible SetGroupVersionKind
      (newObjectConvertor true) oldCar (mkSample carV1 "") None
    = (mkSample carV1 "brand: volvo", None)
  ∧ (isHub (mkSample carV1 "") = true
     ∧ ∃ inGVK converted outGVK,
         gvkForObject oldCar = inr inGVK
         ∧ IsConvertible oldCar = inr true
         ∧ ConvertTo oldCar (mkSample carV1 "") = (converted, None)
         ∧ gvkForObject converted = inr outGVK
         ∧ mkSample carV1 "brand: volvo"
           = SetGroupVersionKind converted outGVK).
Proof.
  split; [reflexivity|]. split; [reflexivity|].
  apply (Convert_into_hub_success isConvertible isHub ConvertTo ConvertFrom
           schemeConvert gvkForObject IsConvertible SetGroupVersionKind
           (newObjectConvertor true) oldCar (mkSample carV1 "") None
           (mkSample carV1 "brand: volvo")); reflexivity.
Defined.

End sample.

End ConvertorProofs.

(** ** Lookups after one call *)

(** X20: what [SetMapping] writes can be read back: [GetMapping] returns
    the checksum path, [ObjectPath] returns its path, and [ObjectsAt] for
    that path returns a set that holds the identity. *)
Theorem SetMapping_lookup f id cp :
  GetMapping (SetMapping f id cp) id = Some cp
  ∧ ObjectPath (SetMapping f id cp) id = inr (Path cp)
  ∧ ∃ ids, ObjectsAt (SetMapping f id cp) (Path cp) = inr ids ∧ id ∈ ids.
Proof.
  unfold ObjectPath, ObjectsAt.
  rewrite GetMapping_SetMapping_eq, pathToIDs_SetMapping_eq.
  split; [done|]. split; [done|].
  eexists. split; [done|]. apply elem_of_union_l. by apply elem_of_singleton.
Qed.

(** X22: on a state where no identity is listed under a path it is not
    mapped to, [DeleteMapping] leaves the identity in the set of no path. *)
Theorem DeleteMapping_removes_everywhere f id p :
  no_stale f →
  match ObjectsAt (DeleteMapping f id) p with
  | inr ids => id ∉ ids
  | inl _ => True
  end.
Proof.
  intros Hf. unfold ObjectsAt.
  destruct (pathToIDs (DeleteMapping f id) !! p) as [ids|] eqn:E; [|done].
  by apply (DeleteMapping_no_stale f id p ids).
Qed.

Lemma DeleteMapping_removes_everywhere_witness :
  no_stale finderA
  ∧ match ObjectsAt (DeleteMapping finderA car1) "a.yaml" with
    | inr ids => car1 ∉ ids
    | inl _ => True
    end.
Proof.
  assert (H : no_stale finderA).
  { apply no_stale_SetMapping; [|apply no_stale_new].
    intros cp. by rewrite GetMapping_new. }
  split; [exact H|].
  exact (DeleteMapping_removes_everywhere finderA car1 "a.yaml" H).
Defined.
